(** * Surfboard Finder: the recommendation engine of
    [surfboard_finder_pro_compare.jsx], embedded in Rocq.

    JavaScript numbers that stay finite are modelled as exact rationals
    ([Q]); where a value can become [NaN] (CSV ingestion) the type
    [JsNum] below adds the non-finite values.  Comparisons of numbers are
    written with [Qle_bool], as the source uses [>=] and [<=].  The
    arithmetic of [heuristicVolume] is also modelled in IEEE-754 doubles
    (module [F64]); the exact [heuristicVolume] is its rational
    idealisation, on which the ranking below is built. *)

From Stdlib Require Import QArith Qpower Qround Qabs Lqa ZArith Lia.
From Stdlib Require Import List String Ascii Bool Sorted Permutation DecimalString.
Import ListNotations.

Open Scope Q_scope.

(** ** Enumerations *)

Inductive Ability := beginner | intermediate | advanced.
Inductive WaveType := small_beach | mellow_point | punchy_reef | overhead.

Definition ability_str (a : Ability) : string :=
  match a with
  | beginner => "beginner" | intermediate => "intermediate" | advanced => "advanced"
  end.

Definition wave_str (w : WaveType) : string :=
  match w with
  | small_beach => "small_beach" | mellow_point => "mellow_point"
  | punchy_reef => "punchy_reef" | overhead => "overhead"
  end.

(** ** Boards

    [waveTypes] and [abilities] hold strings: the source casts CSV cells
    with [as WaveType[]], which does not check anything at run time.
    The record is parametric in the number type: ranking works on finite
    numbers ([Board Q]); CSV ingestion can produce [NaN] ([Board JsNum]).
    The source field [length] is [length_] here ([length] is the list
    length of the Standard Library). *)

Record Board {num : Type} := mkBoard {
  id : string;
  shaper : string;
  model : string;
  waveTypes : list string;
  abilities : list string;
  recommendedWeight : num * num;
  length_ : string;
  volume : num;
  tail : string;
  fins : string;
  construction : string;
  img : string;
  sponsored : option bool
}.
Arguments Board : clear implicits.
Arguments mkBoard {num}.

(** [Array.prototype.includes] on strings. *)
Definition includes (l : list string) (x : string) : bool :=
  existsb (String.eqb x) l.

(** Truthiness of the optional flag ([if (b.sponsored)], [!!b.sponsored]). *)
Definition truthy (o : option bool) : bool :=
  match o with Some true => true | _ => false end.

(** ** Logic helpers *)

(** [Math.round]: nearest integer, ties towards +infinity. *)
Definition Math_round (x : Q) : Z := Qfloor (x + (1#2)).

(** [Math.min] and [Math.abs] on finite numbers. *)
Definition Math_min (x y : Q) : Q := if Qle_bool x y then x else y.

Definition round1 (n : Q) : Q := inject_Z (Math_round (n * 10)) / 10.

Definition mult (a : Ability) : Q * Q :=
  match a with
  | beginner => (45#100, 55#100)
  | intermediate => (38#100, 47#100)
  | advanced => (3#10, 4#10)
  end.

Definition heuristicVolume (weightKg : Q) (ability : Ability) : Q * Q :=
  let '(a, b) := mult ability in
  (round1 (weightKg * a), round1 (weightKg * b)).

Definition scoreBoard (b : Board Q) (weight : Q) (wave : WaveType)
    (ability : Ability) : Q :=
  let '(minV, maxV) := heuristicVolume weight ability in
  let targetV := (minV + maxV) / 2 in
  let volDiff := Qabs (volume b - targetV) in
  let s := 100 - Math_min volDiff 40 * (3#2) in
  let s := if includes (waveTypes b) (wave_str wave) then s + 10 else s in
  let s := if includes (abilities b) (ability_str ability) then s + 8 else s in
  let '(wMin, wMax) := recommendedWeight b in
  let s := if Qle_bool wMin weight && Qle_bool weight wMax then s + 6 else s - 6 in
  if truthy (sponsored b) then s + 3 else s.

(** The rounding the spec describes for [heuristicVolume]: to one decimal,
    ties away from zero. *)
Definition round1_half_away (x : Q) : Q :=
  if Qle_bool 0 x then inject_Z (Qfloor (x * 10 + (1#2))) / 10
  else - (inject_Z (Qfloor (- x * 10 + (1#2))) / 10).

(** ** Sorting

    [Array.prototype.sort] with a comparator: ECMAScript requires the sort
    to be stable, and for a consistent comparator the stable order is
    unique; insertion sort computes it.  [cmp x y > 0] puts [y] before [x];
    otherwise [x], which came first in the input, stays first. *)

Fixpoint insert {A : Type} (cmp : A -> A -> Q) (x : A) (l : list A) : list A :=
  match l with
  | [] => [x]
  | y :: r => if Qle_bool (cmp x y) 0 then x :: y :: r else y :: insert cmp x r
  end.

Fixpoint js_sort {A : Type} (cmp : A -> A -> Q) (l : list A) : list A :=
  match l with
  | [] => []
  | x :: r => insert cmp x (js_sort cmp r)
  end.

(** ** Ranking and filtering *)

(** [{...b, _score: scoreBoard(...)}] *)
Record Scored := mkScored { base : Board Q; _score : Q }.

Definition sb_volume (sb : Scored) : Q := volume (base sb).
Definition sb_shaper (sb : Scored) : string := shaper (base sb).
Definition sb_sponsored (sb : Scored) : bool := truthy (sponsored (base sb)).

(** The sort modes ["best"], ["volume"] and ["sponsored"]. *)
Inductive SortMode := sort_best | sort_volume | sort_sponsored.

(** The page state the pipeline reads: [Number(weight||0)], [ability],
    [wave], [sort] and [selectedShapers]. *)
Record Query := mkQuery {
  weight : Q;
  ability : Ability;
  wave : WaveType;
  sort : SortMode;
  selectedShapers : list string
}.

Definition enrich (q : Query) (b : Board Q) : Scored :=
  mkScored b (scoreBoard b (weight q) (wave q) (ability q)).

Definition enriched (boards : list (Board Q)) (q : Query) : list Scored :=
  map (enrich q) boards.

(** [Number(bool)] *)
Definition Number_of_bool (b : bool) : Q := if b then 1 else 0.

(** The filter chain of [filtered], before the [switch]. *)
Definition candidates (boards : list (Board Q)) (q : Query) : list Scored :=
  let '(minV, maxV) := heuristicVolume (weight q) (ability q) in
  let lst := filter (fun b => includes (waveTypes (base b)) (wave_str (wave q)))
               (enriched boards q) in
  let lst := filter (fun b => includes (abilities (base b)) (ability_str (ability q))) lst in
  let lst := filter (fun b => Qle_bool (minV - 6) (sb_volume b)
                              && Qle_bool (sb_volume b) (maxV + 6)) lst in
  match selectedShapers q with
  | [] => lst
  | sel => filter (fun b => includes sel (sb_shaper b)) lst
  end.

Definition cmp_volume (target : Q) (a b : Scored) : Q :=
  Qabs (sb_volume a - target) - Qabs (sb_volume b - target).
Definition cmp_sponsored (a b : Scored) : Q :=
  Number_of_bool (sb_sponsored b) - Number_of_bool (sb_sponsored a).
Definition cmp_score (a b : Scored) : Q := _score b - _score a.

(** The [switch (sort)] of [filtered]. *)
Definition sort_list (mode : SortMode) (minV maxV : Q) (lst : list Scored) : list Scored :=
  match mode with
  | sort_volume => let target := (minV + maxV) / 2 in js_sort (cmp_volume target) lst
  | sort_sponsored => js_sort cmp_sponsored lst
  | sort_best => js_sort cmp_score lst
  end.

Definition filtered (boards : list (Board Q)) (q : Query) : list Scored :=
  let '(minV, maxV) := heuristicVolume (weight q) (ability q) in
  sort_list (sort q) minV maxV (candidates boards q).

(** The [Map] of [topPicksByShaper], as an association list in insertion
    order. *)
Fixpoint map_push {A : Type} (k : string) (v : A) (m : list (string * list A))
    : list (string * list A) :=
  match m with
  | [] => [(k, [v])]
  | (k', arr) :: r => if String.eqb k k' then (k', arr ++ [v]) :: r
                      else (k', arr) :: map_push k v r
  end.

Definition group_by_shaper (l : list Scored) : list (string * list Scored) :=
  fold_left (fun m b => map_push (sb_shaper b) b m) l [].

Record TopPick := mkTopPick { tp_shaper : string; tp_board : Scored }.

Definition cmp_top (a b : TopPick) : Q := _score (tp_board b) - _score (tp_board a).

(** [({ shaper, board: arr.sort(...)[0] })] for one entry of the map: the
    arrays of the map are never empty ([group_by_shaper_entries] below), so
    the [[]] branch is never taken. *)
Definition top_of_group (g : string * list Scored) : list TopPick :=
  let '(s, arr) := g in
  match js_sort cmp_score arr with
  | b :: _ => [mkTopPick s b]
  | [] => []
  end.

Definition topPicksByShaper (filtered : list Scored) : list TopPick :=
  let tops := flat_map top_of_group (group_by_shaper filtered) in
  js_sort cmp_top tops.

Record Ranking := mkRanking { all : list Scored; topPerBrand : list TopPick }.

Definition rankCatalog (boards : list (Board Q)) (q : Query) : Ranking :=
  let f := filtered boards q in mkRanking f (topPicksByShaper f).

(** ** JavaScript string and number primitives used by the CSV reader

    A string is a sequence of UTF-16 code units; here each character of a
    Rocq [string] is one code unit in U+0000..U+00FF (Latin-1).  In that
    range the ECMAScript white space and line terminator characters (of
    [trim] and of [\s]) are TAB, LF, VT, FF, CR, SPACE and NO-BREAK SPACE
    (U+00A0); U+0085 is not one of them. *)

Definition is_ws (c : ascii) : bool :=
  let n := nat_of_ascii c in
  (Nat.leb 9 n && Nat.leb n 13) || Nat.eqb n 32 || Nat.eqb n 160.

Fixpoint trim_left (s : string) : string :=
  match s with
  | EmptyString => EmptyString
  | String c r => if is_ws c then trim_left r else s
  end.

Definition rev_str (s : string) : string :=
  string_of_list_ascii (rev (list_ascii_of_string s)).

(** [String.prototype.trim] *)
Definition trim (s : string) : string := rev_str (trim_left (rev_str (trim_left s))).

(** The lower-case mapping of a code unit in U+0000..U+00FF: A..Z and the
    Latin-1 capitals U+00C0..U+00DE except U+00D7 move up by 32; the
    others, including U+00DF, map to themselves. *)
Definition lower_ascii (c : ascii) : ascii :=
  let n := nat_of_ascii c in
  if (Nat.leb 65 n && Nat.leb n 90) || (Nat.leb 192 n && Nat.leb n 222 && negb (Nat.eqb n 215))
  then ascii_of_nat (n + 32) else c.

(** [String.prototype.toLowerCase] *)
Fixpoint toLowerCase (s : string) : string :=
  match s with
  | EmptyString => EmptyString
  | String c r => String (lower_ascii c) (toLowerCase r)
  end.

Definition cons_head (c : ascii) (l : list string) : list string :=
  match l with
  | h :: t => String c h :: t
  | [] => [String c EmptyString]
  end.

(** [s.split(sep)] for a one-character separator. *)
Fixpoint split_char (sep : ascii) (s : string) : list string :=
  match s with
  | EmptyString => [EmptyString]
  | String c r => if Ascii.eqb c sep then EmptyString :: split_char sep r
                  else cons_head c (split_char sep r)
  end.

(** [s.split(/\r?\n/)] *)
Fixpoint split_lines (s : string) : list string :=
  match s with
  | EmptyString => [EmptyString]
  | String c r =>
      if Ascii.eqb c "010"%char then EmptyString :: split_lines r
      else match r with
           | String d r' =>
               if Ascii.eqb c "013"%char && Ascii.eqb d "010"%char
               then EmptyString :: split_lines r'
               else cons_head c (split_lines r)
           | EmptyString => cons_head c (split_lines r)
           end
  end.

(** [s.replaceAll(" ", "")] *)
Fixpoint remove_spaces (s : string) : string :=
  match s with
  | EmptyString => EmptyString
  | String c r => if Ascii.eqb c " "%char then remove_spaces r
                  else String c (remove_spaces r)
  end.

(** [s.replace(/\s+/g, "-")]; [in_ws] says the previous character was
    white space already replaced. *)
Fixpoint replace_ws (s : string) (in_ws : bool) : string :=
  match s with
  | EmptyString => EmptyString
  | String c r =>
      if is_ws c then (if in_ws then replace_ws r true else String "-" (replace_ws r true))
      else String c (replace_ws r false)
  end.

(** [s.includes(c)] for a one-character [c]. *)
Fixpoint has_char (c : ascii) (s : string) : bool :=
  match s with
  | EmptyString => false
  | String d r => Ascii.eqb c d || has_char c r
  end.

(** Number to string for a non-negative integer (template literals). *)
Definition string_of_nat (n : nat) : string := NilZero.string_of_uint (Nat.to_uint n).

(** JavaScript numbers as they come out of [Number(string)]: the finite
    ones as exact rationals, plus [NaN] and the two infinities. *)
Inductive JsNum := JNum (q : Q) | JNaN | JInfinity (negative : bool).

Definition digit_value (c : ascii) : option Z :=
  let n := Z.of_nat (nat_of_ascii c) in
  if (48 <=? n)%Z && (n <=? 57)%Z then Some (n - 48)%Z
  else if (97 <=? n)%Z && (n <=? 102)%Z then Some (n - 87)%Z
  else if (65 <=? n)%Z && (n <=? 70)%Z then Some (n - 55)%Z
  else None.

(** The longest prefix of digits of [base], and the rest. *)
Fixpoint take_digits (base : Z) (s : string) : list Z * string :=
  match s with
  | EmptyString => ([], EmptyString)
  | String c r =>
      match digit_value c with
      | Some d => if (d <? base)%Z then let '(ds, rest) := take_digits base r in (d :: ds, rest)
                  else ([], s)
      | None => ([], s)
      end
  end.

Definition digits_to_Z (base : Z) (ds : list Z) : Z :=
  fold_left (fun acc d => acc * base + d)%Z ds 0%Z.

Definition is_nil {A : Type} (l : list A) : bool :=
  match l with [] => true | _ => false end.

(** [[+-]? digits] after the [e] of an exponent, up to the end. *)
Definition parse_exponent (s : string) : option Z :=
  let '(sign, r) := match s with
                    | String c r => if Ascii.eqb c "+"%char then (1%Z, r)
                                    else if Ascii.eqb c "-"%char then ((-1)%Z, r)
                                    else (1%Z, s)
                    | EmptyString => (1%Z, s)
                    end in
  let '(ds, rest) := take_digits 10 r in
  if negb (is_nil ds) && String.eqb rest EmptyString
  then Some (sign * digits_to_Z 10 ds)%Z else None.

(** StrUnsignedDecimalLiteral: [Infinity], or digits with an optional
    fraction and exponent, up to the end. *)
Definition parse_unsigned_decimal (s : string) : option JsNum :=
  if String.eqb s "Infinity" then Some (JInfinity false) else
  let '(ip, r1) := take_digits 10 s in
  let '(fp, r2) := match r1 with
                   | String c r => if Ascii.eqb c "."%char then take_digits 10 r
                                   else ([], r1)
                   | EmptyString => ([], r1)
                   end in
  if is_nil ip && is_nil fp then None else
  let e := match r2 with
           | EmptyString => Some 0%Z
           | String c r => if Ascii.eqb c "e"%char || Ascii.eqb c "E"%char
                           then parse_exponent r else None
           end in
  match e with
  | None => None
  | Some e =>
      Some (JNum (inject_Z (digits_to_Z 10 (ip ++ fp))
                  * Qpower 10 (e - Z.of_nat (List.length fp))))
  end.

Definition js_neg (n : JsNum) : JsNum :=
  match n with
  | JNum q => JNum (- q)
  | JNaN => JNaN
  | JInfinity b => JInfinity (negb b)
  end.

Definition parse_decimal (s : string) : option JsNum :=
  match s with
  | String c r => if Ascii.eqb c "+"%char then parse_unsigned_decimal r
                  else if Ascii.eqb c "-"%char then option_map js_neg (parse_unsigned_decimal r)
                  else parse_unsigned_decimal s
  | EmptyString => parse_unsigned_decimal s
  end.

(** NonDecimalIntegerLiteral: [0x..], [0o..], [0b..]. *)
Definition parse_nondecimal (s : string) : option JsNum :=
  match s with
  | String z (String k r) =>
      if Ascii.eqb z "0"%char then
        let base := if Ascii.eqb k "x"%char || Ascii.eqb k "X"%char then Some 16%Z
                    else if Ascii.eqb k "o"%char || Ascii.eqb k "O"%char then Some 8%Z
                    else if Ascii.eqb k "b"%char || Ascii.eqb k "B"%char then Some 2%Z
                    else None in
        match base with
        | Some b => let '(ds, rest) := take_digits b r in
                    if negb (is_nil ds) && String.eqb rest EmptyString
                    then Some (JNum (inject_Z (digits_to_Z b ds))) else None
        | None => None
        end
      else None
  | _ => None
  end.

(** [Number(s)] for a string (StringToNumber), without the rounding to a
    double. *)
Definition Number (s : string) : JsNum :=
  let t := trim s in
  if String.eqb t EmptyString then JNum 0 else
  match parse_nondecimal t with
  | Some v => v
  | None => match parse_decimal t with Some v => v | None => JNaN end
  end.

(** ** IEEE-754 binary64 arithmetic of [heuristicVolume]

    The source computes [heuristicVolume] in doubles: the literals [0.45],
    ..., [0.4] are the doubles nearest to them, and each [*] and [/]
    rounds its exact result to the nearest double, ties to even.  [fl]
    is that rounding; a double is kept as the exact rational it denotes.
    [JsNum] has a single zero, so [-0] is read as [+0]; no result below
    depends on the sign of a zero.  [Math.round] of a double is an integer
    that is itself a double, so it is exact. *)

Module F64.

(** Round to the nearest integer, ties to even. *)
Definition round_ne (m : Q) : Z :=
  let f := Qfloor m in
  let d := m - inject_Z f in
  if Qle_bool (1#2) d then
    (if Qle_bool d (1#2) then (if Z.even f then f else (f + 1)%Z) else (f + 1)%Z)
  else f.

(** [floor (log2 x)] for [x > 0]. *)
Definition exponent (x : Q) : Z :=
  let e0 := (Z.log2 (Qnum x) - Z.log2 (Zpos (Qden x)))%Z in
  if Qle_bool (2 ^ e0) x then e0 else (e0 - 1)%Z.

(** The double nearest to [x] (53-bit significand, exponents down to the
    subnormal [2^-1074]), or an infinity when it overflows. *)
Definition fl (x : Q) : JsNum :=
  if Qeq_bool x 0 then JNum 0 else
  let ax := Qabs x in
  let q := Z.max (exponent ax - 52) (-1074) in
  let v := inject_Z (round_ne (ax / 2 ^ q)) * 2 ^ q in
  if Qle_bool (2 ^ 1024) v then JInfinity (negb (Qle_bool 0 x))
  else JNum (if Qle_bool 0 x then v else - v).

Definition is_neg (x : Q) : bool := negb (Qle_bool 0 x).

(** [x * y] on numbers. *)
Definition mul (x y : JsNum) : JsNum :=
  match x, y with
  | JNaN, _ | _, JNaN => JNaN
  | JNum a, JNum b => fl (a * b)
  | JInfinity s, JNum b | JNum b, JInfinity s =>
      if Qeq_bool b 0 then JNaN else JInfinity (xorb s (is_neg b))
  | JInfinity s, JInfinity t => JInfinity (xorb s t)
  end.

(** [x / y] on numbers. *)
Definition div (x y : JsNum) : JsNum :=
  match x, y with
  | JNaN, _ | _, JNaN => JNaN
  | JNum a, JNum b =>
      if Qeq_bool b 0 then (if Qeq_bool a 0 then JNaN else JInfinity (is_neg a))
      else fl (a / b)
  | JInfinity s, JNum b => JInfinity (xorb s (is_neg b))
  | JNum _, JInfinity _ => JNum 0
  | JInfinity _, JInfinity _ => JNaN
  end.

(** [Math.round]: nearest integer, ties towards +infinity. *)
Definition Math_round (x : JsNum) : JsNum :=
  match x with
  | JNum a => JNum (inject_Z (Qfloor (a + (1#2))))
  | _ => x
  end.

(** [const round1 = (n) => Math.round(n * 10) / 10] *)
Definition round1 (n : JsNum) : JsNum := div (Math_round (mul n (JNum 10))) (JNum 10).

(** [heuristicVolume], with [weightKg * a] and [weightKg * b] in doubles. *)
Definition heuristicVolume (weightKg : JsNum) (ability : Ability) : JsNum * JsNum :=
  let '(a, b) := mult ability in
  (round1 (mul weightKg (fl a)), round1 (mul weightKg (fl b))).

End F64.

(** ** CSV ingestion ([safeParseCSVRow], [parseAirtableCSV]) *)

(** The loop of [safeParseCSVRow]: [cur] is the field being read, [inQ]
    whether the reader is inside quotes. *)
Fixpoint csv_fields (s : string) (cur : string) (inQ : bool) : list string :=
  match s with
  | EmptyString => [cur]
  | String ch r =>
      if Ascii.eqb ch "034"%char then csv_fields r cur (negb inQ)
      else if Ascii.eqb ch ","%char && negb inQ then cur :: csv_fields r EmptyString inQ
      else csv_fields r (cur ++ String ch EmptyString) inQ
  end.

Definition safeParseCSVRow (line : string) (expected : nat) : option (list string) :=
  let out := csv_fields line EmptyString false in
  if Nat.leb expected (List.length out) then Some out else None.

(** [headers.indexOf(k)], [None] for -1. *)
Fixpoint index_of (l : list string) (k : string) : option nat :=
  match l with
  | [] => None
  | h :: t => if String.eqb h k then Some 0%nat else option_map S (index_of t k)
  end.

(** [cols[idx(k)]], [None] for [undefined]. *)
Definition cell (headers cols : list string) (k : string) : option string :=
  match index_of headers k with
  | Some n => nth_error cols n
  | None => None
  end.

(** [v || d] for a cell [v] and a string [d]. *)
Definition or_str (v : option string) (d : string) : string :=
  match v with
  | Some s => if String.eqb s EmptyString then d else s
  | None => d
  end.

(** [Number(v || 0)] for a cell [v]. *)
Definition number_or0 (v : option string) : JsNum :=
  match v with
  | Some s => if String.eqb s EmptyString then JNum 0 else Number s
  | None => JNum 0
  end.

(** [v ? (v.includes("|") ? v.split("|") : v.split(",")) : []] *)
Definition split_multi (v : string) : list string :=
  if String.eqb v EmptyString then []
  else if has_char "|"%char v then split_char "|"%char v else split_char ","%char v.

Definition sponsored_values : list string := ["1"; "true"; "yes"; "y"]%string.

(** The object pushed for row [i] of the CSV. *)
Definition board_of_row (headers cols : list string) (i : nat) : Board JsNum :=
  let col := cell headers cols in
  let wave := remove_spaces (or_str (col "waveTypes"%string) EmptyString) in
  let abil := remove_spaces (or_str (col "abilities"%string) EmptyString) in
  let sponsoredRaw := toLowerCase (or_str (col "sponsored"%string) EmptyString) in
  {| id := or_str (col "id"%string)
             (replace_ws (toLowerCase (or_str (col "shaper"%string) EmptyString ++ "-"
                                       ++ or_str (col "model"%string) (string_of_nat i))) false);
     shaper := or_str (col "shaper"%string) EmptyString;
     model := or_str (col "model"%string) EmptyString;
     waveTypes := split_multi wave;
     abilities := split_multi abil;
     recommendedWeight := (number_or0 (col "recommendedWeightMin"%string),
                           number_or0 (col "recommendedWeightMax"%string));
     length_ := or_str (col "length"%string) EmptyString;
     volume := number_or0 (col "volume"%string);
     tail := or_str (col "tail"%string) EmptyString;
     fins := or_str (col "fins"%string) EmptyString;
     construction := or_str (col "construction"%string) EmptyString;
     img := or_str (col "img"%string) EmptyString;
     sponsored := Some (includes sponsored_values sponsoredRaw) |}.

(** The [for] loop over the data rows, [i] being the row index. *)
Fixpoint rows_to_boards (headers : list string) (rows : list string) (i : nat)
    : list (Board JsNum) :=
  match rows with
  | [] => []
  | r :: rs =>
      match safeParseCSVRow r (List.length headers) with
      | None => rows_to_boards headers rs (S i)
      | Some cols => board_of_row headers cols i :: rows_to_boards headers rs (S i)
      end
  end.

Definition parseAirtableCSV (csv : string) : list (Board JsNum) :=
  let rows := filter (fun r => negb (String.eqb r EmptyString)) (split_lines csv) in
  match rows with
  | [] => []
  | r0 :: rest => rows_to_boards (map trim (split_char ","%char r0)) rest 1
  end.

(** ** Catalog loader ([load] in the page's effect) *)

Definition inch : string := String "034"%char EmptyString.

Definition FALLBACK_BOARDS : list (Board Q) := [
  mkBoard "js-monsta-2024" "JS Industries" "Monsta 2024"
    ["small_beach"; "mellow_point"; "punchy_reef"] ["intermediate"; "advanced"]
    (65, 95) ("6'0" ++ inch) (63#2) "Squash" "Thruster / 5-fin" "PU/PE"
    "https://images.unsplash.com/photo-1544551763-7ef420b9b04c?q=80&w=1200&auto=format&fit=crop"
    None;
  mkBoard "ci-happy-everyday" "Channel Islands" "Happy Everyday"
    ["small_beach"; "mellow_point"] ["beginner"; "intermediate"]
    (55, 90) ("5'10" ++ inch) (303#10) "Rounded Squash" "Thruster / Quad" "PU/PE / Spine-Tek"
    "https://images.unsplash.com/photo-1540932239986-30128078f3c5?q=80&w=1200&auto=format&fit=crop"
    (Some true);
  mkBoard "pyzel-ghost" "Pyzel" "Ghost"
    ["punchy_reef"; "overhead"] ["intermediate"; "advanced"]
    (70, 105) ("6'2" ++ inch) (328#10) "Round" "Thruster" "PU/PE / Epoxy"
    "https://images.unsplash.com/photo-1496545672447-f699b503d270?q=80&w=1200&auto=format&fit=crop"
    None ]%string.

Definition board_to_js (b : Board Q) : Board JsNum :=
  {| id := id b; shaper := shaper b; model := model b; waveTypes := waveTypes b;
     abilities := abilities b;
     recommendedWeight := (JNum (fst (recommendedWeight b)), JNum (snd (recommendedWeight b)));
     length_ := length_ b; volume := JNum (volume b); tail := tail b; fins := fins b;
     construction := construction b; img := img b; sponsored := sponsored b |}.

Inductive DataSource := github | airtable.

Definition DATA_SOURCE : DataSource := github.

Definition data_source_str (d : DataSource) : string :=
  match d with github => "github" | airtable => "airtable" end.

(** The outcome of [fetch(url, {cache: "no-store"})] on the source's URL:
    a rejected promise, or a response with its [ok] flag, status and body
    text. *)
Inductive FetchResult := FetchRejected | FetchResponse (ok : bool) (status : Z) (body : string).

(** One run of [load] that is not cancelled: the catalog passed to
    [setBoards] and the message passed to [setError].  [json] is
    [r.json()]: [None] when it throws. *)
Definition load (src : DataSource) (json : string -> option (list (Board JsNum)))
    (r : FetchResult) : list (Board JsNum) * option string :=
  let data :=
    match src with
    | airtable => match r with
                  | FetchResponse true _ body => Some (parseAirtableCSV body)
                  | _ => None
                  end
    | github => match r with
                | FetchResponse true _ body => json body
                | _ => None
                end
    end in
  match data with
  | Some d => (d, None)
  | None => (map board_to_js FALLBACK_BOARDS,
             Some ("Using sample data (" ++ data_source_str src ++ " fetch failed)")%string)
  end.

(** ** Data source URL ([normalizeGithubRaw]) *)

Fixpoint drop_n (n : nat) (s : string) : string :=
  match n, s with
  | O, _ => s
  | S n', String _ r => drop_n n' r
  | S _, EmptyString => EmptyString
  end.

(** [s.replace(pat, rep)] with a string pattern: the first occurrence only
    ([rep] holds no [$] pattern here). *)
Fixpoint replace_first (pat rep s : string) : string :=
  if String.prefix pat s then (rep ++ drop_n (String.length pat) s)%string
  else match s with
       | EmptyString => EmptyString
       | String c r => String c (replace_first pat rep r)
       end.

Definition is_line_terminator (c : ascii) : bool :=
  Ascii.eqb c "010"%char || Ascii.eqb c "013"%char.

(** [.+] followed by [pat]: at least one character other than a line
    terminator ([seen] says one was read), then [pat]. *)
Fixpoint dotplus_then (pat s : string) (seen : bool) : bool :=
  (seen && String.prefix pat s)
  || match s with
     | EmptyString => false
     | String c r => negb (is_line_terminator c) && dotplus_then pat r true
     end.

(** [/github\.com\/.+\/blob\//.test(url)]: some position of [url] starts
    a match. *)
Fixpoint github_blob_test (s : string) : bool :=
  (String.prefix "github.com/" s && dotplus_then "/blob/" (drop_n 11 s) false)
  || match s with
     | EmptyString => false
     | String _ r => github_blob_test r
     end.

Definition normalizeGithubRaw (url : string) : string :=
  if github_blob_test url
  then replace_first "/blob/" "/"
         (replace_first "https://github.com/" "https://raw.githubusercontent.com/" url)
  else url.

Definition GITHUB_JSON_URL : string :=
  "https://github.com/DJenkin82/Surfboard-Finder/blob/main/Surfboard%20Finder.txt".

(** [s.includes(pat)] for a string pattern. *)
Fixpoint str_contains (pat s : string) : bool :=
  String.prefix pat s
  || match s with
     | EmptyString => false
     | String _ r => str_contains pat r
     end.

(** ** Page state updates *)

(** [toggleCompare]: remove a selected id, or add it while fewer than four
    are selected. *)
Definition toggleCompare (id : string) (prev : list string) : list string :=
  if includes prev id then filter (fun x => negb (String.eqb x id)) prev
  else if Nat.ltb (List.length prev) 4 then prev ++ [id] else prev.

(** [toggleShaper] *)
Definition toggleShaper (s : string) (prev : list string) : list string :=
  if includes prev s then filter (fun x => negb (String.eqb x s)) prev else prev ++ [s].

(** [selectedBoards] *)
Definition selectedBoards (boards : list (Board Q)) (compareIds : list string) : list (Board Q) :=
  filter (fun b => includes compareIds (id b)) boards.

(** [new Set(xs)] in insertion order. *)
Definition set_from (xs : list string) : list string :=
  fold_left (fun acc x => if includes acc x then acc else acc ++ [x]) xs [].

(** The default comparator of [Array.prototype.sort] on strings:
    code-unit order. *)
Definition default_string_cmp (a b : string) : Q :=
  match String.compare a b with Lt => -1 | Eq => 0 | Gt => 1 end.

(** [allShapers = Array.from(new Set(enriched.map(b => b.shaper))).sort()] *)
Definition allShapers (enriched : list Scored) : list string :=
  js_sort default_string_cmp (set_from (map sb_shaper enriched)).

(** ** Sample inputs *)

(** A board at the target volume 34 of an 80 kg intermediate rider. *)
Definition board_at_target : Board Q :=
  (mkBoard "t" "T" "Target" ["mellow_point"] ["intermediate"] (65, 95) "6'0" 34
    "Squash" "Thruster" "PU" "img" (Some true))%string.

Definition query_sponsored : Query := mkQuery 80 intermediate small_beach sort_sponsored [].

Definition nl : string := String "010"%char EmptyString.

(** A CSV with a [volume] column and one row whose cell is [abc]. *)
Definition csv_abc : string := ("volume" ++ nl ++ "abc")%string.
Definition board_abc : Board JsNum := board_of_row ["volume"]%string ["abc"]%string 1.

(** A CSV whose [sponsored] cell has a leading space. *)
Definition csv_spaced_yes : string := ("id,sponsored" ++ nl ++ "x, yes")%string.

(** The same board as [board_at_target], 6 litres bigger. *)
Definition board_bigger : Board Q :=
  (mkBoard "t" "T" "Target" ["mellow_point"] ["intermediate"] (65, 95) "6'0" 40
    "Squash" "Thruster" "PU" "img" (Some true))%string.

(** A CSV with a quoted multi-value cell, a synthesized id and a short row. *)
Definition csv_tags : string :=
  ("shaper,model,waveTypes" ++ nl ++ "JS Industries,Monsta 2024," ++ String "034" "small_beach, mellow_point" ++ String "034" EmptyString ++ nl ++ "short")%string.

(** The board parsed from the second line of [csv_tags]. *)
Definition board_tags : Board JsNum :=
  board_of_row ["shaper"; "model"; "waveTypes"]%string
    ["JS Industries"; "Monsta 2024"; "small_beach, mellow_point"]%string 1.

Definition query_best : Query := mkQuery 80 intermediate small_beach sort_best [].
Definition query_volume : Query := mkQuery 80 intermediate small_beach sort_volume [].

(** * Properties *)

(** ** Scoring *)

Lemma Math_min_le (x y : Q) : Math_min x y <= y.
Proof.
  unfold Math_min. destruct (Qle_bool x y) eqn:E.
  - apply Qle_bool_iff. exact E.
  - apply Qle_refl.
Qed.

Lemma Math_min_nonneg (x y : Q) : 0 <= x -> 0 <= y -> 0 <= Math_min x y.
Proof. unfold Math_min. destruct (Qle_bool x y); auto. Qed.

Lemma Math_min_abs_zero (x y : Q) : x == y -> Math_min (Qabs (x - y)) 40 == 0.
Proof.
  intros Hxy.
  assert (Ha : Qabs (x - y) <= 0) by (apply Qabs_Qle_condition; lra).
  pose proof (Qabs_nonneg (x - y)) as Hn.
  unfold Math_min. destruct (Qle_bool (Qabs (x - y)) 40) eqn:E.
  - lra.
  - exfalso. assert (Qabs (x - y) <= 40) as H40 by lra.
    apply Qle_bool_iff in H40. congruence.
Qed.

(** C1: [scoreBoard] is the additive point system: base
    [100 - min(|volume - targetV|, 40) * 1.5], +10 for the wave, +8 for the
    ability, +6 or -6 for the rider weight, +3 when sponsored; a board at
    the target volume matching everything and sponsored scores 127. *)
Theorem scoreBoard_points (b : Board Q) (weight : Q) (wave : WaveType) (ability : Ability) :
  let targetV := (fst (heuristicVolume weight ability) + snd (heuristicVolume weight ability)) / 2 in
  scoreBoard b weight wave ability ==
    100 - Math_min (Qabs (volume b - targetV)) 40 * (3#2)
    + (if includes (waveTypes b) (wave_str wave) then 10 else 0)
    + (if includes (abilities b) (ability_str ability) then 8 else 0)
    + (if Qle_bool (fst (recommendedWeight b)) weight
          && Qle_bool weight (snd (recommendedWeight b)) then 6 else -6)
    + (if truthy (sponsored b) then 3 else 0)
  /\ (volume b == targetV ->
      includes (waveTypes b) (wave_str wave) = true ->
      includes (abilities b) (ability_str ability) = true ->
      fst (recommendedWeight b) <= weight <= snd (recommendedWeight b) ->
      sponsored b = Some true ->
      scoreBoard b weight wave ability == 127).
Proof.
  unfold scoreBoard. destruct (heuristicVolume weight ability) as [minV maxV].
  destruct (recommendedWeight b) as [wMin wMax]. cbv beta iota zeta. cbn [fst snd].
  split.
  - destruct (includes (waveTypes b) (wave_str wave));
    destruct (includes (abilities b) (ability_str ability));
    destruct (Qle_bool wMin weight && Qle_bool weight wMax);
    destruct (truthy (sponsored b)); lra.
  - intros Hv Hw Ha [Hlo Hhi] Hs.
    rewrite Hw, Ha, Hs.
    apply Qle_bool_iff in Hlo. apply Qle_bool_iff in Hhi. rewrite Hlo, Hhi. cbn [truthy andb].
    pose proof (Math_min_abs_zero _ _ Hv). lra.
Qed.

Lemma scoreBoard_points_witness :
  scoreBoard board_at_target 80 mellow_point intermediate == 127.
Proof.
  apply (proj2 (scoreBoard_points board_at_target 80 mellow_point intermediate));
    vm_compute; try reflexivity; split; discriminate.
Defined.

(** C10: for every board (finite volume) and every input the score lies
    in [[34, 127]]. *)
Theorem scoreBoard_range (b : Board Q) (weight : Q) (wave : WaveType) (ability : Ability) :
  34 <= scoreBoard b weight wave ability <= 127.
Proof.
  destruct (scoreBoard_points b weight wave ability) as [H _].
  set (m := Math_min _ 40) in H.
  assert (0 <= m) by (apply Math_min_nonneg; [apply Qabs_nonneg | lra]).
  assert (m <= 40) by apply Math_min_le.
  rewrite H.
  destruct (includes (waveTypes b) (wave_str wave));
  destruct (includes (abilities b) (ability_str ability));
  destruct (_ && _); destruct (truthy (sponsored b)); lra.
Qed.

(** ** Volume heuristic *)


(** [round_ne] is within 1/2 of its argument. *)
Lemma round_ne_spec (m : Q) : Qabs (inject_Z (F64.round_ne m) - m) <= 1#2.
Proof.
  unfold F64.round_ne.
  pose proof (Qfloor_le m) as H1. pose proof (Qlt_floor m) as H2.
  set (f := Qfloor m) in *.
  rewrite inject_Z_plus in H2. change (inject_Z 1) with 1 in H2.
  apply Qabs_Qle_condition.
  destruct (Qle_bool (1#2) (m - inject_Z f)) eqn:E1.
  - apply Qle_bool_iff in E1.
    destruct (Qle_bool (m - inject_Z f) (1#2)) eqn:E2.
    + apply Qle_bool_iff in E2.
      destruct (Z.even f); [split; lra |].
      rewrite inject_Z_plus. change (inject_Z 1) with 1. split; lra.
    + assert (E3 : ~ (m - inject_Z f <= 1#2)) by (intros H; apply Qle_bool_iff in H; congruence).
      apply Qnot_le_lt in E3.
      rewrite inject_Z_plus. change (inject_Z 1) with 1. split; lra.
  - assert (E3 : ~ ((1#2) <= m - inject_Z f)) by (intros H; apply Qle_bool_iff in H; congruence).
    apply Qnot_le_lt in E3. split; lra.
Qed.

(** [2 ^ exponent x <= x] for [x > 0]. *)
Lemma exponent_lower (x : Q) : 0 < x -> 2 ^ F64.exponent x <= x.
Proof.
  intros Hx. unfold F64.exponent.
  set (e0 := (Z.log2 (Qnum x) - Z.log2 (Zpos (Qden x)))%Z).
  destruct (Qle_bool (2 ^ e0) x) eqn:E; [apply Qle_bool_iff; exact E |].
  destruct x as [n d]. cbn [Qnum Qden] in e0.
  assert (Hn : (0 < n)%Z).
  { unfold Qlt in Hx. simpl in Hx. lia. }
  destruct (Z.log2_spec n Hn) as [Ha _].
  destruct (Z.log2_spec (Zpos d) eq_refl) as [_ Hb].
  set (a := Z.log2 n) in *. set (b := Z.log2 (Zpos d)) in *.
  assert (Ha0 : (0 <= a)%Z) by apply Z.log2_nonneg.
  assert (Hb0 : (0 <= b)%Z) by apply Z.log2_nonneg.
  set (T := 2 ^ (e0 - 1)%Z).
  assert (HT : 0 < T) by (apply Qpower_0_lt; reflexivity).
  assert (HTb : T * 2 ^ (Z.succ b) == 2 ^ a).
  { unfold T. rewrite <- Qpower_plus by discriminate. f_equiv. unfold e0. lia. }
  assert (HA : 2 ^ a <= inject_Z n).
  { change (inject_Z 2 ^ a <= inject_Z n).
    rewrite <- Zpower_Qpower by exact Ha0. rewrite <- Zle_Qle. exact Ha. }
  assert (HB : inject_Z (Zpos d) <= 2 ^ (Z.succ b)).
  { change (inject_Z (Zpos d) <= inject_Z 2 ^ (Z.succ b)).
    rewrite <- Zpower_Qpower by lia. rewrite <- Zle_Qle. lia. }
  assert (HTD : T * inject_Z (Zpos d) <= inject_Z n).
  { apply Qle_trans with (T * 2 ^ (Z.succ b)); [| rewrite HTb; exact HA].
    rewrite !(Qmult_comm T). apply Qmult_le_compat_r; [exact HB | lra]. }
  assert (Hd : 0 < inject_Z (Zpos d)) by (unfold Qlt; simpl; lia).
  rewrite Qmake_Qdiv.
  apply Qle_shift_div_l; [exact Hd | exact HTD].
Qed.

Lemma Qabs_pos_of_neq (x : Q) : ~ x == 0 -> 0 < Qabs x.
Proof.
  intros Hx. destruct (Qlt_le_dec 0 x) as [H | H].
  - rewrite Qabs_pos by lra. exact H.
  - rewrite Qabs_neg by exact H.
    destruct (Qle_lt_or_eq _ _ H) as [H' | H']; [lra | contradiction].
Qed.

(** Below [2^1023], [fl] is finite with relative error [2^-53], plus
    an absolute error [2^-60] (a bound above the subnormal spacing). *)
Lemma fl_spec (x : Q) :
  Qabs x < 2 ^ 1023 ->
  exists v, F64.fl x = JNum v /\
    Qabs (v - x) <= Qabs x * (1#9007199254740992) + (1#1152921504606846976).
Proof.
  intros Hb. unfold F64.fl.
  destruct (Qeq_bool x 0) eqn:Ez.
  - exists 0. split; [reflexivity |]. apply Qeq_bool_eq in Ez. rewrite Ez.
    unfold Qle; simpl; lia.
  - apply Qeq_bool_neq in Ez. pose proof (Qabs_pos_of_neq x Ez) as Hax.
    set (ax := Qabs x) in *.
    pose proof (exponent_lower ax Hax) as He.
    set (e := F64.exponent ax) in *.
    set (q := Z.max (e - 52) (-1074)).
    assert (Hq : 0 < 2 ^ q) by (apply Qpower_0_lt; reflexivity).
    assert (Hq0 : ~ 2 ^ q == 0) by lra.
    set (m := ax / 2 ^ q).
    pose proof (round_ne_spec m) as Hr.
    set (r := F64.round_ne m) in *.
    set (v0 := inject_Z r * 2 ^ q).
    assert (Hv : v0 - ax == (inject_Z r - m) * 2 ^ q) by (unfold v0, m; field; exact Hq0).
    apply Qabs_Qle_condition in Hr. destruct Hr as [Hr1 Hr2].
    assert (Hu : (inject_Z r - m) * 2 ^ q <= (1#2) * 2 ^ q)
      by (apply Qmult_le_compat_r; lra).
    assert (Hl : (-(1#2)) * 2 ^ q <= (inject_Z r - m) * 2 ^ q)
      by (apply Qmult_le_compat_r; lra).
    assert (Hhalf : (1#2) * 2 ^ q <= ax * (1#9007199254740992) + (1#1152921504606846976)).
    { unfold q. destruct (Z.max_spec (e - 52) (-1074)) as [[_ Hm] | [_ Hm]]; rewrite Hm.
      - assert (H1 : (1#2) * 2 ^ (-1074) <= (1#1152921504606846976))
          by (apply Qle_bool_iff; vm_compute; reflexivity).
        assert (H2 : 0 <= ax) by lra. lra.
      - replace (e - 52)%Z with (e + -52)%Z by lia.
        rewrite Qpower_plus by discriminate.
        assert (H1 : 2 ^ (-52) == (1#4503599627370496)) by reflexivity.
        rewrite H1. lra. }
    assert (H1023 : 1 <= 2 ^ 1023) by (apply Qle_bool_iff; vm_compute; reflexivity).
    assert (H1024 : 2 ^ 1024 == 2 * 2 ^ 1023) by reflexivity.
    assert (Hnov : Qle_bool (2 ^ 1024) v0 = false).
    { destruct (Qle_bool (2 ^ 1024) v0) eqn:Eo; [| reflexivity].
      apply Qle_bool_iff in Eo. exfalso. lra. }
    rewrite Hnov.
    destruct (Qle_bool 0 x) eqn:Es.
    + apply Qle_bool_iff in Es.
      assert (Hx : ax == x) by (apply Qabs_pos; exact Es).
      exists v0. split; [reflexivity |].
      apply Qabs_Qle_condition. split; lra.
    + assert (Es' : x <= 0).
      { destruct (Qlt_le_dec 0 x) as [H | H]; [| exact H].
        assert (Qle_bool 0 x = true) by (apply Qle_bool_iff; lra). congruence. }
      assert (Hx : ax == - x) by (apply Qabs_neg; exact Es').
      exists (- v0). split; [reflexivity |].
      apply Qabs_Qle_condition. split; lra.
Qed.

(** In the normal range the relative error bound alone holds. *)
Lemma fl_spec_normal (x : Q) :
  2 ^ (-1022) <= Qabs x -> Qabs x < 2 ^ 1023 ->
  exists v, F64.fl x = JNum v /\
    Qabs (v - x) <= Qabs x * (1#9007199254740992).
Proof.
  intros Hn Hb. unfold F64.fl.
  destruct (Qeq_bool x 0) eqn:Ez.
  - apply Qeq_bool_eq in Ez. rewrite Ez in Hn. exfalso.
    assert (H : 0 < 2 ^ (-1022)) by (apply Qpower_0_lt; reflexivity).
    assert (H0 : Qabs 0 == 0) by reflexivity. lra.
  - apply Qeq_bool_neq in Ez. pose proof (Qabs_pos_of_neq x Ez) as Hax.
    set (ax := Qabs x) in *.
    pose proof (exponent_lower ax Hax) as He.
    set (e := F64.exponent ax) in *.
    set (q := Z.max (e - 52) (-1074)).
    assert (Hq : 0 < 2 ^ q) by (apply Qpower_0_lt; reflexivity).
    assert (Hq0 : ~ 2 ^ q == 0) by lra.
    set (m := ax / 2 ^ q).
    pose proof (round_ne_spec m) as Hr.
    set (r := F64.round_ne m) in *.
    set (v0 := inject_Z r * 2 ^ q).
    assert (Hv : v0 - ax == (inject_Z r - m) * 2 ^ q) by (unfold v0, m; field; exact Hq0).
    apply Qabs_Qle_condition in Hr. destruct Hr as [Hr1 Hr2].
    assert (Hu : (inject_Z r - m) * 2 ^ q <= (1#2) * 2 ^ q)
      by (apply Qmult_le_compat_r; lra).
    assert (Hl : (-(1#2)) * 2 ^ q <= (inject_Z r - m) * 2 ^ q)
      by (apply Qmult_le_compat_r; lra).
    assert (Hhalf : (1#2) * 2 ^ q <= ax * (1#9007199254740992)).
    { unfold q. destruct (Z.max_spec (e - 52) (-1074)) as [[_ Hm] | [_ Hm]]; rewrite Hm.
      - assert (H1 : (1#2) * 2 ^ (-1074) == 2 ^ (-1022) * (1#9007199254740992)) by reflexivity.
        lra.
      - replace (e - 52)%Z with (e + -52)%Z by lia.
        rewrite Qpower_plus by discriminate.
        assert (H1 : 2 ^ (-52) == (1#4503599627370496)) by reflexivity.
        rewrite H1. lra. }
    assert (H1023 : 1 <= 2 ^ 1023) by (apply Qle_bool_iff; vm_compute; reflexivity).
    assert (H1024 : 2 ^ 1024 == 2 * 2 ^ 1023) by reflexivity.
    assert (Hnov : Qle_bool (2 ^ 1024) v0 = false).
    { destruct (Qle_bool (2 ^ 1024) v0) eqn:Eo; [| reflexivity].
      apply Qle_bool_iff in Eo. exfalso. lra. }
    rewrite Hnov.
    destruct (Qle_bool 0 x) eqn:Es.
    + apply Qle_bool_iff in Es.
      assert (Hx : ax == x) by (apply Qabs_pos; exact Es).
      exists v0. split; [reflexivity |].
      apply Qabs_Qle_condition. split; lra.
    + assert (Es' : x <= 0).
      { destruct (Qlt_le_dec 0 x) as [H | H]; [| exact H].
        assert (Qle_bool 0 x = true) by (apply Qle_bool_iff; lra). congruence. }
      assert (Hx : ax == - x) by (apply Qabs_neg; exact Es').
      exists (- v0). split; [reflexivity |].
      apply Qabs_Qle_condition. split; lra.
Qed.

Lemma abs_bounds (x : Q) : - Qabs x <= x /\ x <= Qabs x.
Proof.
  split; [| apply Qle_Qabs].
  pose proof (Qle_Qabs (- x)) as H. rewrite Qabs_opp in H. lra.
Qed.

(** [round1 (w * c)] with [c] the double of a fraction in [[2^-1022, 1]]:
    the double nearest to some [k / 10], within
    [0.05 + (|w c| + 1) 2^-50] of [w c]. *)
Lemma round1_mul_spec (w c : Q) :
  2 ^ (-1022) <= c -> c <= 1 -> Qabs w <= 2 ^ 1000 ->
  exists (k : Z) (v : Q),
    F64.round1 (F64.mul (JNum w) (F64.fl c)) = F64.fl (inject_Z k / 10) /\
    F64.fl (inject_Z k / 10) = JNum v /\
    Qabs (v - w * c) <= (1#20) + (Qabs (w * c) + 1) * (1#1125899906842624).
Proof.
  intros Hc0 Hc1 Hw.
  assert (Hmin : 0 < 2 ^ (-1022)) by (apply Qpower_0_lt; reflexivity).
  assert (H1023 : 2 ^ 1000 * 16 <= 2 ^ 1023) by (apply Qle_bool_iff; vm_compute; reflexivity).
  assert (Hp1000 : 1 <= 2 ^ 1000) by (apply Qle_bool_iff; vm_compute; reflexivity).
  assert (Hac : Qabs c == c) by (apply Qabs_pos; lra).
  destruct (fl_spec_normal c) as [cd [Ecd Hcd]]; [lra | lra |].
  rewrite Hac in Hcd. apply Qabs_Qle_condition in Hcd.
  pose proof (Qabs_nonneg w) as Hw0.
  assert (HwcA : Qabs (w * c) == Qabs w * c) by (rewrite Qabs_Qmult, Hac; reflexivity).
  assert (Hwc1 : Qabs w * c <= Qabs w)
    by (rewrite <- (Qmult_1_r (Qabs w)) at 2; rewrite !(Qmult_comm (Qabs w));
        apply Qmult_le_compat_r; lra).
  assert (FA : Qabs (w * cd - w * c) <= Qabs (w * c) * (1#9007199254740992)).
  { setoid_replace (w * cd - w * c) with (w * (cd - c)) by ring.
    rewrite Qabs_Qmult, HwcA.
    assert (Hd : Qabs (cd - c) <= c * (1#9007199254740992)) by (apply Qabs_Qle_condition; lra).
    rewrite <- Qmult_assoc, !(Qmult_comm (Qabs w)).
    apply Qmult_le_compat_r; [exact Hd | exact Hw0]. }
  assert (TB : Qabs (w * cd) <= Qabs (w * c) + Qabs (w * cd - w * c)).
  { setoid_replace (w * cd) with (w * c + (w * cd - w * c)) at 1 by ring. apply Qabs_triangle. }
  unfold F64.round1. rewrite Ecd. cbn [F64.mul].
  destruct (fl_spec (w * cd)) as [p [Ep Hp]]; [lra |].
  rewrite Ep. cbn [F64.mul].
  assert (HpA : Qabs (p * 10) == Qabs p * 10) by (rewrite Qabs_Qmult; reflexivity).
  assert (TP : Qabs p <= Qabs (w * cd) + Qabs (p - w * cd)).
  { setoid_replace p with (w * cd + (p - w * cd)) at 1 by ring. apply Qabs_triangle. }
  destruct (fl_spec (p * 10)) as [y [Ey Hy]]; [lra |].
  rewrite Ey. cbn [F64.Math_round]. unfold F64.div.
  replace (Qeq_bool 10 0) with false by reflexivity.
  set (k := Qfloor (y + (1#2))).
  assert (Hk1 : inject_Z k <= y + (1#2)) by apply Qfloor_le.
  assert (Hk2 : y + (1#2) < inject_Z k + 1).
  { pose proof (Qlt_floor (y + (1#2))) as H. fold k in H.
    rewrite inject_Z_plus in H. exact H. }
  pose proof (abs_bounds y) as [Hy1 Hy2].
  assert (TY : Qabs y <= Qabs (p * 10) + Qabs (y - p * 10)).
  { setoid_replace y with (p * 10 + (y - p * 10)) at 1 by ring. apply Qabs_triangle. }
  change (inject_Z k / 10) with (inject_Z k * (1#10)) in *.
  assert (HK : Qabs (inject_Z k * (1#10)) <= Qabs y * (1#10) + (1#20))
    by (apply Qabs_Qle_condition; split; lra).
  destruct (fl_spec (inject_Z k * (1#10))) as [v [Ev Hv]]; [lra |].
  exists k, v. split; [reflexivity | split; [exact Ev |]].
  pose proof Hv as Hv'. pose proof Hy as Hy'. pose proof Hp as Hp'. pose proof FA as FA'.
  apply Qabs_Qle_condition in Hv', Hy', Hp', FA'.
  pose proof (abs_bounds (w * c)) as [Hwc2 Hwc3].
  apply Qabs_Qle_condition. split; lra.
Qed.


(** C2, amended: in the doubles of the source, for every weight [w] with
    [|w| <= 2^1000] and every ability with fractions [(a, b)], each bound of
    [heuristicVolume] is the double nearest to [k / 10] for an integer [k],
    and that double is within [0.05 + (|w a| + 1) 2^-50] of the exact
    product [w a] (resp. [w b]).  For 80 kg and [intermediate] the range is
    [[30.4, 37.6]]. *)
Theorem heuristicVolume_tenths :
  (forall (w : Q) (ab : Ability), Qabs w <= 2 ^ 1000 ->
     (exists (k : Z) (v : Q),
        fst (F64.heuristicVolume (JNum w) ab) = F64.fl (inject_Z k / 10) /\
        F64.fl (inject_Z k / 10) = JNum v /\
        Qabs (v - w * fst (mult ab)) <= (1#20) + (Qabs (w * fst (mult ab)) + 1) * (1#1125899906842624)) /\
     (exists (k : Z) (v : Q),
        snd (F64.heuristicVolume (JNum w) ab) = F64.fl (inject_Z k / 10) /\
        F64.fl (inject_Z k / 10) = JNum v /\
        Qabs (v - w * snd (mult ab)) <= (1#20) + (Qabs (w * snd (mult ab)) + 1) * (1#1125899906842624))) /\
  F64.heuristicVolume (JNum 80) intermediate = (F64.fl (304#10), F64.fl (376#10)).
Proof.
  split; [| vm_compute; reflexivity].
  intros w ab Hw.
  unfold F64.heuristicVolume.
  destruct ab; cbn [mult fst snd];
    split; apply round1_mul_spec; try exact Hw;
    apply Qle_bool_iff; vm_compute; reflexivity.
Qed.

Lemma heuristicVolume_tenths_witness :
  Qabs 85 <= 2 ^ 1000 /\
  exists (k : Z) (v : Q),
    snd (F64.heuristicVolume (JNum 85) intermediate) = F64.fl (inject_Z k / 10) /\
    F64.fl (inject_Z k / 10) = JNum v /\
    Qabs (v - 85 * snd (mult intermediate)) <= (1#20) + (Qabs (85 * snd (mult intermediate)) + 1) * (1#1125899906842624).
Proof.
  assert (H : Qabs 85 <= 2 ^ 1000) by (apply Qle_bool_iff; vm_compute; reflexivity).
  split; [exact H |].
  exact (proj2 (proj1 heuristicVolume_tenths 85 intermediate H)).
Defined.

(** C2, as the spec states it, fails: for 85 kg and [intermediate] the
    exact product [85 * 0.47] is [39.95], which rounds half away from zero
    to 40; but the double product [85 * 0.47] is [39.949999999999996], so
    the upper bound is [39.9]. *)
Lemma heuristicVolume_85_not_half_away :
  round1_half_away (85 * snd (mult intermediate)) == 40 /\
  F64.heuristicVolume (JNum 85) intermediate = (F64.fl (323#10), F64.fl (399#10)) /\
  F64.fl (399#10) <> F64.fl (round1_half_away (85 * snd (mult intermediate))).
Proof.
  split; [reflexivity |]. split; [vm_compute; reflexivity |].
  vm_compute. discriminate.
Qed.

(** ** The sort *)

Section JsSort.
Context {A : Type} (cmp : A -> A -> Q).

Lemma insert_perm (x : A) (l : list A) : Permutation (insert cmp x l) (x :: l).
Proof.
  induction l as [| y r IH]; simpl; [reflexivity |].
  destruct (Qle_bool (cmp x y) 0); [reflexivity |].
  rewrite IH. apply perm_swap.
Qed.

Lemma js_sort_perm (l : list A) : Permutation (js_sort cmp l) l.
Proof.
  induction l as [| x r IH]; simpl; [reflexivity |].
  rewrite insert_perm. apply perm_skip. exact IH.
Qed.

(** [R x y]: [x] may come before [y]; the comparator decides it. *)
Variable R : A -> A -> Prop.
Hypothesis cmp_R : forall x y, Qle_bool (cmp x y) 0 = true <-> R x y.
Hypothesis R_trans : forall x y z, R x y -> R y z -> R x z.
Hypothesis R_total : forall x y, R x y \/ R y x.

Lemma not_cmp_R (x y : A) : Qle_bool (cmp x y) 0 = false -> R y x.
Proof.
  intros E. destruct (R_total x y) as [H | H]; [| exact H].
  apply cmp_R in H. congruence.
Qed.

Lemma insert_sorted (x : A) (l : list A) : Sorted R l -> Sorted R (insert cmp x l).
Proof.
  induction l as [| y r IH]; intros Hs; simpl.
  - constructor; constructor.
  - destruct (Qle_bool (cmp x y) 0) eqn:E.
    + constructor; [exact Hs | constructor; apply cmp_R; exact E].
    + apply not_cmp_R in E.
      apply Sorted_inv in Hs as [Hr Hh].
      constructor; [apply IH; exact Hr |].
      destruct r as [| z r']; simpl.
      * constructor; exact E.
      * destruct (Qle_bool (cmp x z) 0); constructor; [exact E |].
        inversion Hh; assumption.
Qed.

Lemma js_sort_sorted (l : list A) : Sorted R (js_sort cmp l).
Proof.
  induction l as [| x r IH]; simpl; [constructor |].
  apply insert_sorted. exact IH.
Qed.

(** The head of the sorted list is the first element of the input that
    every element may follow. *)
Lemma js_sort_head (l : list A) :
  l <> [] ->
  exists h rest pre post,
    js_sort cmp l = h :: rest /\ l = pre ++ h :: post /\
    (forall y, In y pre -> ~ R y h) /\ (forall y, In y l -> R h y).
Proof.
  induction l as [| x r IH]; intros Hne; [congruence |].
  destruct r as [| x' r'].
  - exists x, [], [], [].
    split; [reflexivity |]. split; [reflexivity |]. split; [intros y [] |].
    intros y [<- | []]. destruct (R_total x x); assumption.
  - destruct IH as (h & rest & pre & post & Hsort & Hl & Hpre & Hmax); [discriminate |].
    simpl js_sort in Hsort |- *. rewrite Hsort. simpl.
    destruct (Qle_bool (cmp x h) 0) eqn:E.
    + apply cmp_R in E.
      exists x, (h :: rest), [], (x' :: r').
      split; [reflexivity |]. split; [reflexivity |]. split; [intros y [] |].
      intros y [<- | Hy].
        -- destruct (R_total x x); assumption.
        -- apply R_trans with h; [exact E | apply Hmax; exact Hy].
    + exists h, (insert cmp x rest), (x :: pre), post.
      split; [reflexivity |]. split; [rewrite Hl; reflexivity |]. split.
      * intros y [<- | Hy]; [| apply Hpre; exact Hy].
        intros Hyh. apply cmp_R in Hyh. congruence.
      * intros y [<- | Hy]; [apply not_cmp_R; exact E | apply Hmax; exact Hy].
Qed.
End JsSort.

Lemma includes_In (l : list string) (x : string) : includes l x = true <-> In x l.
Proof.
  unfold includes. rewrite existsb_exists. split.
  - intros [y [Hy E]]. apply String.eqb_eq in E. subst. exact Hy.
  - intros Hx. exists x. split; [exact Hx | apply String.eqb_refl].
Qed.

Lemma sort_list_perm (mode : SortMode) (minV maxV : Q) (l : list Scored) :
  Permutation (sort_list mode minV maxV l) l.
Proof. destruct mode; apply js_sort_perm. Qed.

(** ** Ranking: membership *)

(** C3: a scored board is in [all] exactly when it is a board of the
    catalog with the queried wave and ability, with a volume inside the
    widened heuristic window, and (if a brand filter is set) of a selected
    shaper. *)
Theorem rankCatalog_all_members (boards : list (Board Q)) (q : Query) (sb : Scored) :
  In sb (all (rankCatalog boards q)) <->
  exists b, sb = enrich q b /\ In b boards /\
    In (wave_str (wave q)) (waveTypes b) /\
    In (ability_str (ability q)) (abilities b) /\
    fst (heuristicVolume (weight q) (ability q)) - 6 <= volume b /\
    volume b <= snd (heuristicVolume (weight q) (ability q)) + 6 /\
    (selectedShapers q = [] \/ In (shaper b) (selectedShapers q)).
Proof.
  unfold rankCatalog, filtered. simpl all.
  destruct (heuristicVolume (weight q) (ability q)) as [minV maxV] eqn:Hv.
  split.
  - intros Hin. apply (Permutation_in _ (sort_list_perm _ _ _ _)) in Hin.
    unfold candidates in Hin. rewrite Hv in Hin.
    assert (Hc : In sb (filter (fun b => Qle_bool (minV - 6) (sb_volume b)
                                         && Qle_bool (sb_volume b) (maxV + 6))
                          (filter (fun b => includes (abilities (base b)) (ability_str (ability q)))
                             (filter (fun b => includes (waveTypes (base b)) (wave_str (wave q)))
                                (enriched boards q)))) /\
                 (selectedShapers q = [] \/ In (sb_shaper sb) (selectedShapers q))).
    { destruct (selectedShapers q) as [| s ss].
      - split; [exact Hin | left; reflexivity].
      - apply filter_In in Hin as [Hin Hs]. split; [exact Hin |].
        right. apply includes_In. exact Hs. }
    destruct Hc as [Hc Hsel].
    apply filter_In in Hc as [Hc Hvol]. apply filter_In in Hc as [Hc Hab].
    apply filter_In in Hc as [Hc Hwv].
    unfold enriched in Hc. apply in_map_iff in Hc as [b [Eb Hb]].
    apply andb_true_iff in Hvol as [Hlo Hhi].
    apply Qle_bool_iff in Hlo. apply Qle_bool_iff in Hhi.
    subst sb. exists b. simpl in *.
    split; [reflexivity |]. split; [exact Hb |].
    split; [apply includes_In; exact Hwv |]. split; [apply includes_In; exact Hab |].
    split; [exact Hlo |]. split; [exact Hhi | exact Hsel].
  - intros (b & -> & Hb & Hwv & Hab & Hlo & Hhi & Hsel).
    apply (Permutation_in _ (Permutation_sym (sort_list_perm _ _ _ _))).
    unfold candidates. rewrite Hv.
    assert (Hc : In (enrich q b)
                   (filter (fun b => Qle_bool (minV - 6) (sb_volume b)
                                     && Qle_bool (sb_volume b) (maxV + 6))
                      (filter (fun b => includes (abilities (base b)) (ability_str (ability q)))
                         (filter (fun b => includes (waveTypes (base b)) (wave_str (wave q)))
                            (enriched boards q))))).
    { apply filter_In. split.
      - apply filter_In. split.
        + apply filter_In. split.
          * apply in_map. exact Hb.
          * apply includes_In. exact Hwv.
        + apply includes_In. exact Hab.
      - apply andb_true_iff. simpl in Hlo, Hhi |- *.
        split; apply Qle_bool_iff; assumption. }
    destruct (selectedShapers q) as [| s ss]; [exact Hc |].
    apply filter_In. split; [exact Hc |].
    destruct Hsel as [Hsel | Hsel]; [discriminate |].
    apply includes_In. exact Hsel.
Qed.

(** ** Ranking: the [sponsored] sort mode *)

Lemma insert_sponsored (x : Scored) (l : list Scored) :
  sb_sponsored x = true -> insert cmp_sponsored x l = x :: l.
Proof.
  intros Hx. destruct l as [| y r]; simpl; [reflexivity |].
  unfold cmp_sponsored. rewrite Hx.
  destruct (sb_sponsored y); reflexivity.
Qed.

Lemma insert_unsponsored (x : Scored) (F N : list Scored) :
  sb_sponsored x = false ->
  Forall (fun y => sb_sponsored y = true) F ->
  Forall (fun y => sb_sponsored y = false) N ->
  insert cmp_sponsored x (F ++ N) = F ++ x :: N.
Proof.
  intros Hx HF HN. induction HF as [| y F Hy HF IH]; simpl.
  - destruct N as [| z N']; simpl; [reflexivity |].
    inversion HN as [| ? ? Hz _]; subst.
    unfold cmp_sponsored. rewrite Hx, Hz. reflexivity.
  - unfold cmp_sponsored at 1. rewrite Hx, Hy. simpl. f_equal. exact IH.
Qed.

Lemma js_sort_sponsored (l : list Scored) :
  js_sort cmp_sponsored l =
  filter sb_sponsored l ++ filter (fun b => negb (sb_sponsored b)) l.
Proof.
  induction l as [| x r IH]; simpl; [reflexivity |].
  rewrite IH. destruct (sb_sponsored x) eqn:Ex; simpl.
  - apply insert_sponsored. exact Ex.
  - apply insert_unsponsored; [exact Ex | |].
    + apply Forall_forall. intros y Hy. apply filter_In in Hy. apply Hy.
    + apply Forall_forall. intros y Hy. apply filter_In in Hy as [_ Hy].
      apply negb_true_iff. exact Hy.
Qed.

(** C8: under the [sponsored] sort mode, [all] is the sponsored candidates
    followed by the others, each group in input order. *)
Theorem sponsored_first_order (boards : list (Board Q)) (q : Query) :
  sort q = sort_sponsored ->
  all (rankCatalog boards q) =
  filter sb_sponsored (candidates boards q)
  ++ filter (fun b => negb (sb_sponsored b)) (candidates boards q).
Proof.
  intros Hs. unfold rankCatalog, filtered. simpl all.
  destruct (heuristicVolume (weight q) (ability q)) as [minV maxV].
  rewrite Hs. simpl. apply js_sort_sponsored.
Qed.

Lemma sponsored_first_order_witness :
  sort query_sponsored = sort_sponsored /\
  all (rankCatalog FALLBACK_BOARDS query_sponsored) =
  filter sb_sponsored (candidates FALLBACK_BOARDS query_sponsored)
  ++ filter (fun b => negb (sb_sponsored b)) (candidates FALLBACK_BOARDS query_sponsored).
Proof.
  split; [reflexivity |].
  apply (sponsored_first_order FALLBACK_BOARDS query_sponsored). reflexivity.
Defined.

(** ** Ranking: top pick per shaper *)

(** The map entry of shaper [k] after reading the boards [P]. *)
Definition entry (P : list Scored) (k : string) : string * list Scored :=
  (k, filter (fun b => String.eqb (sb_shaper b) k) P).

Lemma entry_other (P : list Scored) (b : Scored) (k : string) :
  k <> sb_shaper b -> entry (P ++ [b]) k = entry P k.
Proof.
  intros Hk. unfold entry. rewrite filter_app. simpl.
  destruct (String.eqb (sb_shaper b) k) eqn:E.
  - apply String.eqb_eq in E. congruence.
  - rewrite app_nil_r. reflexivity.
Qed.

Lemma filter_none {A : Type} (f : A -> bool) (l : list A) :
  (forall x, In x l -> f x = false) -> filter f l = [].
Proof.
  induction l as [| x r IH]; intros H; simpl; [reflexivity |].
  rewrite (H x (or_introl eq_refl)). apply IH. intros y Hy. apply H. right. exact Hy.
Qed.

Lemma map_push_entries (P : list Scored) (ks : list string) (b : Scored) :
  NoDup ks ->
  map_push (sb_shaper b) b (map (entry P) ks) =
  if existsb (String.eqb (sb_shaper b)) ks then map (entry (P ++ [b])) ks
  else map (entry (P ++ [b])) ks ++ [(sb_shaper b, [b])].
Proof.
  induction ks as [| k ks IH]; intros Hnd; simpl; [reflexivity |].
  apply NoDup_cons_iff in Hnd as [Hk Hnd].
  destruct (String.eqb (sb_shaper b) k) eqn:E; simpl.
  - apply String.eqb_eq in E.
    assert (Hrest : map (entry P) ks = map (entry (P ++ [b])) ks).
    { apply map_ext_in. intros k' Hk'. symmetry. apply entry_other.
      intros ->. apply Hk. rewrite <- E. exact Hk'. }
    rewrite Hrest. unfold entry at 2. rewrite filter_app. simpl.
    rewrite E, String.eqb_refl. reflexivity.
  - rewrite (entry_other P b k) by (intros ->; rewrite String.eqb_refl in E; discriminate).
    rewrite (IH Hnd). destruct (existsb (String.eqb (sb_shaper b)) ks); reflexivity.
Qed.

Lemma group_fold (l P : list Scored) (ks : list string) :
  NoDup ks ->
  (forall k, In k ks <-> exists y, In y P /\ sb_shaper y = k) ->
  exists ks', NoDup ks' /\
    (forall k, In k ks' <-> exists y, In y (P ++ l) /\ sb_shaper y = k) /\
    fold_left (fun m b => map_push (sb_shaper b) b m) l (map (entry P) ks)
    = map (entry (P ++ l)) ks'.
Proof.
  revert P ks. induction l as [| b l IH]; intros P ks Hnd Hks; simpl.
  - exists ks. rewrite app_nil_r. auto.
  - rewrite (map_push_entries P ks b Hnd).
    replace (P ++ b :: l) with ((P ++ [b]) ++ l) by (rewrite <- app_assoc; reflexivity).
    destruct (existsb (String.eqb (sb_shaper b)) ks) eqn:E.
    + apply IH; [exact Hnd |].
      intros k. rewrite Hks. split.
      * intros [y [Hy Hk]]. exists y. split; [apply in_or_app; left; exact Hy | exact Hk].
      * intros [y [Hy Hk]]. apply in_app_or in Hy as [Hy | [<- | []]].
        -- exists y. auto.
        -- apply existsb_exists in E as [k' [Hk' Ek']]. apply String.eqb_eq in Ek'.
           apply Hks. congruence.
    + assert (Hnew : ~ In (sb_shaper b) ks).
      { intros Hin. assert (existsb (String.eqb (sb_shaper b)) ks = true) as E'
          by (apply existsb_exists; exists (sb_shaper b); split; [exact Hin | apply String.eqb_refl]).
        congruence. }
      assert (Hlast : (sb_shaper b, [b]) = entry (P ++ [b]) (sb_shaper b)).
      { unfold entry. rewrite filter_app. simpl. rewrite String.eqb_refl.
        replace (filter (fun y => String.eqb (sb_shaper y) (sb_shaper b)) P) with (@nil Scored);
          [reflexivity |].
        symmetry. apply filter_none. intros y Hy. apply not_true_iff_false.
        intros Ey. apply String.eqb_eq in Ey. apply Hnew. apply Hks. exists y. auto. }
      rewrite Hlast. replace (map (entry (P ++ [b])) ks ++ [entry (P ++ [b]) (sb_shaper b)])
        with (map (entry (P ++ [b])) (ks ++ [sb_shaper b])) by apply map_app.
      apply IH.
      * apply NoDup_app; [exact Hnd | constructor; [intros [] | constructor] |].
        intros k Hk [<- | []]. exact (Hnew Hk).
      * intros k. rewrite in_app_iff, Hks. split.
        -- intros [[y [Hy Hk]] | [<- | []]].
           ++ exists y. rewrite in_app_iff. auto.
           ++ exists b. rewrite in_app_iff. simpl. auto.
        -- intros [y [Hy Hk]]. apply in_app_or in Hy as [Hy | [<- | []]].
           ++ left. exists y. auto.
           ++ right. left. exact Hk.
Qed.

(** The map of [topPicksByShaper]: one entry per distinct shaper, holding
    that shaper's boards in input order. *)
Lemma group_by_shaper_entries (l : list Scored) :
  exists ks, NoDup ks /\
    (forall k, In k ks <-> exists y, In y l /\ sb_shaper y = k) /\
    group_by_shaper l = map (entry l) ks.
Proof.
  destruct (group_fold l [] [] (NoDup_nil _)) as (ks & Hnd & Hks & Hg).
  - intros k. split; [intros [] | intros [y [[] _]]].
  - exists ks. exact (conj Hnd (conj Hks Hg)).
Qed.

Lemma Q_le_total (x y : Q) : x <= y \/ y <= x.
Proof. destruct (Qlt_le_dec x y) as [H | H]; [left; apply Qlt_le_weak | right]; exact H. Qed.

Lemma cmp_score_R (x y : Scored) :
  Qle_bool (cmp_score x y) 0 = true <-> _score y <= _score x.
Proof. unfold cmp_score. rewrite Qle_bool_iff. split; intros; lra. Qed.

Lemma cmp_top_R (x y : TopPick) :
  Qle_bool (cmp_top x y) 0 = true <-> _score (tp_board y) <= _score (tp_board x).
Proof. unfold cmp_top. rewrite Qle_bool_iff. split; intros; lra. Qed.

Lemma top_of_group_shapers (L : list Scored) (ks : list string) :
  (forall k, In k ks -> exists y, In y L /\ sb_shaper y = k) ->
  map tp_shaper (flat_map top_of_group (map (entry L) ks)) = ks.
Proof.
  induction ks as [| k ks IH]; intros Hks; simpl; [reflexivity |].
  destruct (Hks k (or_introl eq_refl)) as [y [Hy Hk]].
  assert (Hne : In y (js_sort cmp_score (filter (fun b => String.eqb (sb_shaper b) k) L))).
  { apply (Permutation_in _ (Permutation_sym (js_sort_perm _ _))).
    apply filter_In. split; [exact Hy | apply String.eqb_eq; exact Hk]. }
  destruct (js_sort cmp_score (filter (fun b => String.eqb (sb_shaper b) k) L)) as [| h rest];
    [destruct Hne |].
  simpl. f_equal. apply IH. intros k' Hk'. apply Hks. right. exact Hk'.
Qed.

Lemma top_of_group_in (L : list Scored) (ks : list string) (t : TopPick) :
  In t (flat_map top_of_group (map (entry L) ks)) ->
  In (tp_shaper t) ks /\
  exists rest, js_sort cmp_score (filter (fun b => String.eqb (sb_shaper b) (tp_shaper t)) L)
               = tp_board t :: rest.
Proof.
  intros Hin. apply in_flat_map in Hin as [g [Hg Ht]].
  apply in_map_iff in Hg as [k [<- Hk]].
  simpl in Ht.
  destruct (js_sort cmp_score (filter (fun b => String.eqb (sb_shaper b) k) L)) as [| h rest] eqn:E;
    [destruct Ht |].
  destruct Ht as [<- | []]. simpl. split; [exact Hk |]. exists rest. exact E.
Qed.

(** What [topPicksByShaper] computes from any list of scored boards. *)
Lemma topPicksByShaper_spec (L : list Scored) :
  let T := topPicksByShaper L in
  NoDup (map tp_shaper T) /\
  (forall b, In b L -> In (sb_shaper b) (map tp_shaper T)) /\
  (forall t, In t T ->
     sb_shaper (tp_board t) = tp_shaper t /\
     (exists pre post,
        filter (fun b => String.eqb (sb_shaper b) (tp_shaper t)) L = pre ++ tp_board t :: post /\
        (forall b, In b pre -> _score b < _score (tp_board t))) /\
     (forall b, In b L -> sb_shaper b = tp_shaper t -> _score b <= _score (tp_board t))) /\
  Sorted (fun t u => _score (tp_board u) <= _score (tp_board t)) T.
Proof.
  intros T. unfold T, topPicksByShaper.
  destruct (group_by_shaper_entries L) as (ks & Hnd & Hks & Hg). rewrite Hg.
  set (tops := flat_map top_of_group (map (entry L) ks)).
  assert (Hsh : map tp_shaper tops = ks)
    by (apply top_of_group_shapers; intros k Hk; apply Hks; exact Hk).
  pose proof (js_sort_perm cmp_top tops) as Hperm.
  split; [| split; [| split]].
  - apply (Permutation_NoDup (Permutation_map tp_shaper (Permutation_sym Hperm))).
    rewrite Hsh. exact Hnd.
  - intros b Hb. apply (Permutation_in _ (Permutation_map tp_shaper (Permutation_sym Hperm))).
    rewrite Hsh. apply Hks. exists b. auto.
  - intros t Ht. apply (Permutation_in _ Hperm) in Ht.
    destruct (top_of_group_in L ks t Ht) as [_ [rest Hs]].
    destruct (js_sort_head cmp_score (fun x y => _score y <= _score x) cmp_score_R
                (fun x y z Hxy Hyz => Qle_trans _ _ _ Hyz Hxy)
                (fun x y => Q_le_total (_score y) (_score x))
                (filter (fun b => String.eqb (sb_shaper b) (tp_shaper t)) L))
      as (h & rest' & pre & post & Hs' & Hl & Hpre & Hmax).
    { intros E. rewrite E in Hs. discriminate. }
    rewrite Hs in Hs'. injection Hs' as <- _.
    assert (Hin : In (tp_board t) (filter (fun b => String.eqb (sb_shaper b) (tp_shaper t)) L))
      by (rewrite Hl; apply in_or_app; right; left; reflexivity).
    apply filter_In in Hin as [_ Hsh'].
    split; [apply String.eqb_eq; exact Hsh' |]. split.
    + exists pre, post. split; [exact Hl |].
      intros b Hb. apply Qnot_le_lt. exact (Hpre b Hb).
    + intros b Hb Hbs. apply Hmax. apply filter_In. split; [exact Hb |].
      apply String.eqb_eq. exact Hbs.
  - exact (js_sort_sorted cmp_top _ cmp_top_R
             (fun x y => Q_le_total (_score (tp_board y)) (_score (tp_board x))) tops).
Qed.

(** C4: in [topPerBrand] no shaper appears twice and every shaper of
    [all] appears; each entry's board is a board of that shaper with the
    highest score, the first such one in [all]; the entries are in
    descending score order, whatever the sort mode. *)
Theorem topPerBrand_best_per_brand (boards : list (Board Q)) (q : Query) :
  let L := all (rankCatalog boards q) in
  let T := topPerBrand (rankCatalog boards q) in
  NoDup (map tp_shaper T) /\
  (forall b, In b L -> In (sb_shaper b) (map tp_shaper T)) /\
  (forall t, In t T ->
     sb_shaper (tp_board t) = tp_shaper t /\
     (exists pre post,
        filter (fun b => String.eqb (sb_shaper b) (tp_shaper t)) L = pre ++ tp_board t :: post /\
        (forall b, In b pre -> _score b < _score (tp_board t))) /\
     (forall b, In b L -> sb_shaper b = tp_shaper t -> _score b <= _score (tp_board t))) /\
  Sorted (fun t u => _score (tp_board u) <= _score (tp_board t)) T.
Proof. exact (topPicksByShaper_spec (filtered boards q)). Qed.

(** C9: scoring and ranking are functions of their arguments: two calls
    with the same arguments give the same score, and two runs of the
    pipeline on the same catalog and query the same [all] and
    [topPerBrand] sequences. *)
Theorem rankCatalog_deterministic (boards : list (Board Q)) (q : Query) :
  (forall b w wv ab, scoreBoard b w wv ab = scoreBoard b w wv ab) /\
  all (rankCatalog boards q) = all (rankCatalog boards q) /\
  topPerBrand (rankCatalog boards q) = topPerBrand (rankCatalog boards q).
Proof. split; [reflexivity | split; reflexivity]. Qed.

(** ** CSV ingestion *)

Lemma rows_to_boards_in (headers rows : list string) (i : nat) (b : Board JsNum) :
  In b (rows_to_boards headers rows i) ->
  exists row cols j, In row rows /\
    safeParseCSVRow row (List.length headers) = Some cols /\
    b = board_of_row headers cols j.
Proof.
  revert i. induction rows as [| r rs IH]; intros i Hin; simpl in Hin; [destruct Hin |].
  destruct (safeParseCSVRow r (List.length headers)) as [cols |] eqn:E.
  - destruct Hin as [<- | Hin].
    + exists r, cols, i. split; [left; reflexivity | split; [exact E | reflexivity]].
    + destruct (IH (S i) Hin) as (row & cols' & j & Hr & Hc & Hb).
      exists row, cols', j. split; [right; exact Hr | split; assumption].
  - destruct (IH (S i) Hin) as (row & cols' & j & Hr & Hc & Hb).
    exists row, cols', j. split; [right; exact Hr | split; assumption].
Qed.

(** Every parsed board comes from a data row that was not dropped. *)
Lemma parseAirtableCSV_rows (csv : string) (b : Board JsNum) :
  In b (parseAirtableCSV csv) ->
  exists r0 rest row cols j,
    filter (fun r => negb (String.eqb r EmptyString)) (split_lines csv) = r0 :: rest /\
    In row rest /\
    safeParseCSVRow row (List.length (map trim (split_char ","%char r0))) = Some cols /\
    b = board_of_row (map trim (split_char ","%char r0)) cols j.
Proof.
  unfold parseAirtableCSV.
  destruct (filter (fun r => negb (String.eqb r EmptyString)) (split_lines csv)) as [| r0 rest];
    [intros [] |].
  intros Hin. apply rows_to_boards_in in Hin as (row & cols & j & Hr & Hc & Hb).
  exists r0, rest, row, cols, j. auto.
Qed.

(** The parsed boards, mapped through [f], are the data rows with enough
    fields, in order, mapped through [g] on their fields. *)
Lemma rows_to_boards_map {A : Type} (f : Board JsNum -> A) (g : list string -> A)
    (headers rows : list string) (i : nat) :
  (forall cols j, f (board_of_row headers cols j) = g cols) ->
  map f (rows_to_boards headers rows i) =
  map (fun row => g (csv_fields row EmptyString false))
      (filter (fun row => Nat.leb (List.length headers)
                                  (List.length (csv_fields row EmptyString false))) rows).
Proof.
  intros Hfg. revert i. induction rows as [| r rs IH]; intros i; [reflexivity |].
  cbn [rows_to_boards filter]. unfold safeParseCSVRow.
  destruct (Nat.leb (List.length headers) (List.length (csv_fields r EmptyString false))).
  - cbn [map]. rewrite Hfg, IH. reflexivity.
  - apply IH.
Qed.

(** C5, as the spec states it, fails: an unparsable volume cell ["abc"]
    gives [NaN], not 0. *)
Lemma csv_unparsable_volume_not_zero :
  exists b, In b (parseAirtableCSV csv_abc) /\
    Number "abc" = JNaN /\ volume b = JNaN /\ volume b <> JNum 0.
Proof.
  exists board_abc.
  split; [vm_compute; left; reflexivity |].
  split; [vm_compute; reflexivity |].
  split; [vm_compute; reflexivity |].
  vm_compute. discriminate.
Qed.

(** C5, amended: the parsed boards are those of the data rows with enough
    fields, in order, and each board's [recommendedWeight] and [volume] come
    from its own row: a missing or empty cell gives 0, any other cell is
    converted with [Number], which gives [NaN] when it is not a number. *)
Theorem csv_numeric_fields (csv r0 : string) (rest : list string) :
  filter (fun r => negb (String.eqb r EmptyString)) (split_lines csv) = r0 :: rest ->
  let headers := map trim (split_char ","%char r0) in
  let num := fun v : option string =>
    match v with
    | Some s => if String.eqb s EmptyString then JNum 0 else Number s
    | None => JNum 0
    end in
  map (fun b => (fst (recommendedWeight b), snd (recommendedWeight b), volume b))
      (parseAirtableCSV csv) =
  map (fun row =>
         let cols := csv_fields row EmptyString false in
         (num (cell headers cols "recommendedWeightMin"),
          num (cell headers cols "recommendedWeightMax"),
          num (cell headers cols "volume")))
      (filter (fun row => Nat.leb (List.length headers)
                                  (List.length (csv_fields row EmptyString false))) rest).
Proof.
  intros Hrows headers num.
  unfold parseAirtableCSV. rewrite Hrows.
  apply (rows_to_boards_map _
           (fun cols => (num (cell headers cols "recommendedWeightMin"),
                         num (cell headers cols "recommendedWeightMax"),
                         num (cell headers cols "volume")))).
  intros cols j. reflexivity.
Qed.

Lemma csv_numeric_fields_witness :
  filter (fun r => negb (String.eqb r EmptyString)) (split_lines csv_abc) = ["volume"; "abc"]%string /\
  map (fun b => (fst (recommendedWeight b), snd (recommendedWeight b), volume b))
      (parseAirtableCSV csv_abc) = [(JNum 0, JNum 0, JNaN)].
Proof.
  assert (H : filter (fun r => negb (String.eqb r EmptyString)) (split_lines csv_abc)
              = ["volume"; "abc"]%string) by (vm_compute; reflexivity).
  split; [exact H |].
  rewrite (csv_numeric_fields csv_abc "volume" ["abc"]%string H).
  vm_compute. reflexivity.
Defined.

(** C7, as the spec states it, fails: the [sponsored] cell is lower-cased
    but not trimmed, so [" yes"] gives [false] although its trimmed form
    is ["yes"]. *)
Lemma csv_sponsored_not_trimmed :
  exists b, In b (parseAirtableCSV csv_spaced_yes) /\
    In (trim (toLowerCase " yes")) sponsored_values /\ sponsored b = Some false.
Proof.
  exists (board_of_row ["id"; "sponsored"] ["x"; " yes"] 1)%string.
  split; [vm_compute; left; reflexivity |].
  split; [vm_compute; right; right; left; reflexivity | vm_compute; reflexivity].
Qed.

(** C7, amended: the parsed boards are those of the data rows with enough
    fields, in order, and each board's [sponsored] is set from its own row:
    true exactly when the row's [sponsored] cell, lower-cased but not
    trimmed, is one of ["1"], ["true"], ["yes"], ["y"]; a missing cell
    gives false. *)
Theorem csv_sponsored_flag (csv r0 : string) (rest : list string) :
  filter (fun r => negb (String.eqb r EmptyString)) (split_lines csv) = r0 :: rest ->
  let headers := map trim (split_char ","%char r0) in
  map sponsored (parseAirtableCSV csv) =
  map (fun row =>
         Some (match cell headers (csv_fields row EmptyString false) "sponsored" with
               | None => false
               | Some s => existsb (String.eqb (toLowerCase s)) sponsored_values
               end))
      (filter (fun row => Nat.leb (List.length headers)
                                  (List.length (csv_fields row EmptyString false))) rest).
Proof.
  intros Hrows headers.
  unfold parseAirtableCSV. rewrite Hrows.
  apply (rows_to_boards_map sponsored
           (fun cols => Some (match cell headers cols "sponsored" with
                              | None => false
                              | Some s => existsb (String.eqb (toLowerCase s)) sponsored_values
                              end))).
  intros cols j. cbn [sponsored board_of_row]. f_equal.
  destruct (cell headers cols "sponsored") as [s |]; [| reflexivity].
  unfold or_str. destruct (String.eqb s EmptyString) eqn:E; [| reflexivity].
  apply String.eqb_eq in E. subst s. reflexivity.
Qed.

Lemma csv_sponsored_flag_witness :
  filter (fun r => negb (String.eqb r EmptyString)) (split_lines csv_spaced_yes)
    = ["id,sponsored"; "x, yes"]%string /\
  map sponsored (parseAirtableCSV csv_spaced_yes) = [Some false].
Proof.
  assert (H : filter (fun r => negb (String.eqb r EmptyString)) (split_lines csv_spaced_yes)
              = ["id,sponsored"; "x, yes"]%string) by (vm_compute; reflexivity).
  split; [exact H |].
  rewrite (csv_sponsored_flag csv_spaced_yes "id,sponsored" ["x, yes"]%string H).
  vm_compute. reflexivity.
Defined.

(** ** Catalog loader *)

(** C6, as the spec states it, fails: a successful fetch of an empty CSV
    body yields an empty catalog and no warning, not the fallback set. *)
Lemma load_empty_csv_no_fallback :
  load airtable (fun _ => None) (FetchResponse true 200 EmptyString) = ([], None).
Proof. reflexivity. Qed.

(** C6, amended: a rejected fetch, a non-ok response, or (JSON source) a
    body that [r.json()] cannot decode gives the 3 fallback boards and the
    warning naming the source; a successful fetch of an empty CSV body
    gives an empty catalog and no warning.  [load] is total: it always
    returns a catalog. *)
Theorem load_recovery (src : DataSource) (json : string -> option (list (Board JsNum)))
    (r : FetchResult) :
  ((r = FetchRejected \/ (exists st body, r = FetchResponse false st body) \/
    (exists st body, src = github /\ r = FetchResponse true st body /\ json body = None)) ->
   load src json r =
   (map board_to_js FALLBACK_BOARDS,
    Some ("Using sample data (" ++ data_source_str src ++ " fetch failed)")%string)) /\
  (forall st, src = airtable -> load src json (FetchResponse true st EmptyString) = ([], None)) /\
  List.length FALLBACK_BOARDS = 3%nat.
Proof.
  split; [| split; [intros st -> ; reflexivity | reflexivity]].
  intros [-> | [(st & body & ->) | (st & body & -> & -> & Hj)]];
    [destruct src | destruct src |]; try reflexivity.
  unfold load. rewrite Hj. reflexivity.
Qed.

Lemma load_recovery_witness :
  load github (fun _ => None) FetchRejected =
  (map board_to_js FALLBACK_BOARDS, Some "Using sample data (github fetch failed)"%string).
Proof.
  apply (proj1 (load_recovery github (fun _ => None) FetchRejected)).
  left. reflexivity.
Defined.

(** * Further properties of the engine *)

(** ** Volume heuristic *)

Lemma round1_mono (x y : Q) : x <= y -> round1 x <= round1 y.
Proof.
  intros Hxy. unfold round1, Math_round.
  assert (Hf : (Qfloor (x * 10 + (1#2)) <= Qfloor (y * 10 + (1#2)))%Z)
    by (apply Qfloor_resp_le; lra).
  rewrite Zle_Qle in Hf.
  set (Fx := inject_Z (Qfloor (x * 10 + (1#2)))) in *.
  set (Fy := inject_Z (Qfloor (y * 10 + (1#2)))) in *.
  change (Fx / 10) with (Fx * (1#10)). change (Fy / 10) with (Fy * (1#10)).
  lra.
Qed.

(** For a non-negative weight the heuristic range is never inverted: its
    lower bound is at most its upper bound. *)
Theorem heuristicVolume_ordered (w : Q) (ab : Ability) :
  0 <= w -> fst (heuristicVolume w ab) <= snd (heuristicVolume w ab).
Proof.
  intros Hw. unfold heuristicVolume.
  assert (Hab : fst (mult ab) <= snd (mult ab))
    by (destruct ab; simpl; unfold Qle; simpl; lia).
  destruct (mult ab) as [a b]. simpl in Hab |- *.
  apply round1_mono. rewrite (Qmult_comm w a), (Qmult_comm w b). apply Qmult_le_compat_r; assumption.
Qed.

Lemma heuristicVolume_ordered_witness :
  0 <= 80 /\ fst (heuristicVolume 80 advanced) <= snd (heuristicVolume 80 advanced).
Proof.
  split; [unfold Qle; simpl; lia |].
  apply heuristicVolume_ordered. unfold Qle; simpl; lia.
Defined.

(** ** Scoring *)

Lemma Math_min_mono (x y z : Q) : x <= y -> Math_min x z <= Math_min y z.
Proof.
  intros Hxy. unfold Math_min.
  destruct (Qle_bool x z) eqn:Ex; destruct (Qle_bool y z) eqn:Ey;
    try apply Qle_bool_iff in Ex; try apply Qle_bool_iff in Ey.
  - exact Hxy.
  - apply Ex.
  - exfalso. assert (x <= z) as Hxz by (apply (Qle_trans _ y); assumption).
    apply Qle_bool_iff in Hxz. congruence.
  - apply Qle_refl.
Qed.

(** Of two boards that differ only in volume, the one whose volume is
    closer to the target volume never scores lower. *)
Theorem scoreBoard_closer_volume (b1 b2 : Board Q) (weight : Q) (wave : WaveType)
    (ability : Ability) :
  waveTypes b1 = waveTypes b2 -> abilities b1 = abilities b2 ->
  recommendedWeight b1 = recommendedWeight b2 -> sponsored b1 = sponsored b2 ->
  let targetV := (fst (heuristicVolume weight ability) + snd (heuristicVolume weight ability)) / 2 in
  Qabs (volume b1 - targetV) <= Qabs (volume b2 - targetV) ->
  scoreBoard b2 weight wave ability <= scoreBoard b1 weight wave ability.
Proof.
  intros Hw Ha Hr Hs targetV Hd. unfold targetV in Hd.
  destruct (scoreBoard_points b1 weight wave ability) as [H1 _].
  destruct (scoreBoard_points b2 weight wave ability) as [H2 _].
  rewrite H1, H2. rewrite Hw, Ha, Hr, Hs.
  pose proof (Math_min_mono _ _ 40 Hd).
  destruct (includes (waveTypes b2) (wave_str wave));
  destruct (includes (abilities b2) (ability_str ability));
  destruct (_ && _); destruct (truthy (sponsored b2)); lra.
Qed.

Lemma scoreBoard_closer_volume_witness :
  scoreBoard board_bigger 80 mellow_point intermediate
  <= scoreBoard board_at_target 80 mellow_point intermediate.
Proof.
  apply scoreBoard_closer_volume; try reflexivity.
  vm_compute. discriminate.
Defined.

(** ** Ranking: order of [all] *)

(** Sorting never adds or drops a candidate: [all] is a permutation of
    the filtered candidates, whatever the sort mode. *)
Theorem all_permutation_candidates (boards : list (Board Q)) (q : Query) :
  Permutation (all (rankCatalog boards q)) (candidates boards q).
Proof.
  unfold rankCatalog, filtered. simpl all.
  destruct (heuristicVolume (weight q) (ability q)) as [minV maxV].
  apply sort_list_perm.
Qed.

(** Under the ["best"] sort mode, [all] is in non-increasing score order. *)
Theorem all_sorted_best (boards : list (Board Q)) (q : Query) :
  sort q = sort_best ->
  Sorted (fun a b => _score b <= _score a) (all (rankCatalog boards q)).
Proof.
  intros Hs. unfold rankCatalog, filtered. simpl all.
  destruct (heuristicVolume (weight q) (ability q)) as [minV maxV].
  rewrite Hs. simpl.
  exact (js_sort_sorted cmp_score _ cmp_score_R
           (fun x y => Q_le_total (_score y) (_score x)) _).
Qed.

Lemma all_sorted_best_witness :
  sort query_best = sort_best /\
  Sorted (fun a b => _score b <= _score a) (all (rankCatalog FALLBACK_BOARDS query_best)).
Proof.
  split; [reflexivity |]. apply all_sorted_best. reflexivity.
Defined.

Lemma cmp_volume_R (t : Q) (x y : Scored) :
  Qle_bool (cmp_volume t x y) 0 = true <-> Qabs (sb_volume x - t) <= Qabs (sb_volume y - t).
Proof. unfold cmp_volume. rewrite Qle_bool_iff. split; intros; lra. Qed.

(** Under the ["volume"] sort mode, [all] is in non-decreasing order of
    the distance between a board's volume and the target volume. *)
Theorem all_sorted_volume (boards : list (Board Q)) (q : Query) :
  sort q = sort_volume ->
  let targetV := (fst (heuristicVolume (weight q) (ability q))
                  + snd (heuristicVolume (weight q) (ability q))) / 2 in
  Sorted (fun a b => Qabs (sb_volume a - targetV) <= Qabs (sb_volume b - targetV))
    (all (rankCatalog boards q)).
Proof.
  intros Hs targetV. unfold targetV, rankCatalog, filtered. simpl all.
  destruct (heuristicVolume (weight q) (ability q)) as [minV maxV].
  rewrite Hs. simpl.
  exact (js_sort_sorted (cmp_volume ((minV + maxV) / 2)) _ (cmp_volume_R _)
           (fun x y => Q_le_total _ _) _).
Qed.

Lemma all_sorted_volume_witness :
  sort query_volume = sort_volume /\
  let targetV := (fst (heuristicVolume 80 intermediate)
                  + snd (heuristicVolume 80 intermediate)) / 2 in
  Sorted (fun a b => Qabs (sb_volume a - targetV) <= Qabs (sb_volume b - targetV))
    (all (rankCatalog FALLBACK_BOARDS query_volume)).
Proof.
  split; [reflexivity |]. apply (all_sorted_volume FALLBACK_BOARDS query_volume). reflexivity.
Defined.

(** For a fixed ability, a heavier rider gets a volume window whose bounds
    are no smaller. *)
Theorem heuristicVolume_mono (w1 w2 : Q) (ab : Ability) :
  w1 <= w2 ->
  fst (heuristicVolume w1 ab) <= fst (heuristicVolume w2 ab) /\
  snd (heuristicVolume w1 ab) <= snd (heuristicVolume w2 ab).
Proof.
  intros Hw. unfold heuristicVolume.
  assert (Hab : 0 <= fst (mult ab) /\ 0 <= snd (mult ab))
    by (destruct ab; simpl; split; unfold Qle; simpl; lia).
  destruct (mult ab) as [a b]. simpl in Hab |- *. destruct Hab as [Ha Hb].
  split; apply round1_mono; apply Qmult_le_compat_r; assumption.
Qed.

Lemma heuristicVolume_mono_witness :
  70 <= 80 /\
  fst (heuristicVolume 70 beginner) <= fst (heuristicVolume 80 beginner) /\
  snd (heuristicVolume 70 beginner) <= snd (heuristicVolume 80 beginner).
Proof.
  split; [unfold Qle; simpl; lia |].
  apply heuristicVolume_mono. unfold Qle; simpl; lia.
Defined.

(** ** Shaper chips ([allShapers]) *)

Lemma set_from_fold (xs acc : list string) :
  NoDup acc ->
  NoDup (fold_left (fun acc x => if includes acc x then acc else acc ++ [x]) xs acc) /\
  (forall y, In y (fold_left (fun acc x => if includes acc x then acc else acc ++ [x]) xs acc)
             <-> In y acc \/ In y xs).
Proof.
  revert acc. induction xs as [| x xs IH]; intros acc Hnd; simpl.
  - split; [exact Hnd |]. intros y. tauto.
  - destruct (includes acc x) eqn:E.
    + apply includes_In in E.
      destruct (IH acc Hnd) as [Hn Hi]. split; [exact Hn |].
      intros y. rewrite Hi. split; [tauto |].
      intros [Hy | [<- | Hy]]; auto.
    + assert (Hx : ~ In x acc) by (intros Hin; apply includes_In in Hin; congruence).
      assert (Hnd' : NoDup (acc ++ [x])).
      { apply NoDup_app; [exact Hnd | constructor; [intros [] | constructor] |].
        intros y Hy [<- | []]. exact (Hx Hy). }
      destruct (IH _ Hnd') as [Hn Hi]. split; [exact Hn |].
      intros y. rewrite Hi, in_app_iff. simpl. tauto.
Qed.

Lemma default_string_cmp_R (a b : string) :
  Qle_bool (default_string_cmp a b) 0 = true <-> String.leb a b = true.
Proof.
  unfold default_string_cmp, String.leb.
  destruct (String.compare a b); split; intros H; try reflexivity; discriminate.
Qed.

(** The shaper chips list every shaper of the scored catalog once, in
    code-unit order. *)
Theorem allShapers_spec (enriched : list Scored) :
  NoDup (allShapers enriched) /\
  (forall s, In s (allShapers enriched) <-> exists sb, In sb enriched /\ sb_shaper sb = s) /\
  Sorted (fun a b => String.leb a b = true) (allShapers enriched).
Proof.
  unfold allShapers.
  destruct (set_from_fold (map sb_shaper enriched) [] (NoDup_nil _)) as [Hnd Hin].
  pose proof (js_sort_perm default_string_cmp (set_from (map sb_shaper enriched))) as Hp.
  split; [| split].
  - apply (Permutation_NoDup (Permutation_sym Hp)). exact Hnd.
  - intros s. split.
    + intros Hs. apply (Permutation_in _ Hp) in Hs. apply Hin in Hs as [[] | Hs].
      apply in_map_iff in Hs as [sb [Hsb Hin']]. exists sb. auto.
    + intros [sb [Hsb <-]]. apply (Permutation_in _ (Permutation_sym Hp)).
      apply Hin. right. apply in_map. exact Hsb.
  - exact (js_sort_sorted default_string_cmp _ default_string_cmp_R String.leb_total _).
Qed.

(** ** Compare selection and shaper filter *)

Lemma filter_all {A : Type} (f : A -> bool) (l : list A) :
  (forall x, In x l -> f x = true) -> filter f l = l.
Proof.
  induction l as [| x r IH]; intros H; simpl; [reflexivity |].
  rewrite (H x (or_introl eq_refl)). f_equal. apply IH. intros y Hy. apply H. right. exact Hy.
Qed.

Lemma includes_false (l : list string) (x : string) : includes l x = false <-> ~ In x l.
Proof.
  split.
  - intros E Hin. apply includes_In in Hin. congruence.
  - intros Hn. destruct (includes l x) eqn:E; [| reflexivity].
    apply includes_In in E. contradiction.
Qed.

Lemma filter_neq_In (l : list string) (id x : string) :
  In x (filter (fun y => negb (String.eqb y id)) l) <-> x <> id /\ In x l.
Proof.
  rewrite filter_In, negb_true_iff, String.eqb_neq. tauto.
Qed.

(** After [toggleCompare id], an id is selected exactly when it was
    selected and is not [id], or it is [id], was not selected, and fewer
    than four ids were selected. *)
Theorem toggleCompare_members (id x : string) (prev : list string) :
  In x (toggleCompare id prev) <->
  (x <> id /\ In x prev) \/ (x = id /\ ~ In id prev /\ (List.length prev < 4)%nat).
Proof.
  unfold toggleCompare.
  destruct (includes prev id) eqn:E.
  - apply includes_In in E. rewrite filter_neq_In. split; [tauto |].
    intros [H | (_ & Hn & _)]; [exact H | contradiction].
  - apply includes_false in E.
    destruct (Nat.ltb (List.length prev) 4) eqn:L.
    + apply Nat.ltb_lt in L. rewrite in_app_iff. simpl. split.
      * intros [Hx | [<- | []]]; [left; split; [intros ->; contradiction | exact Hx] |].
        right. auto.
      * intros [[_ Hx] | (-> & _ & _)]; auto.
    + apply Nat.ltb_ge in L. split.
      * intros Hx. left. split; [intros ->; contradiction | exact Hx].
      * intros [[_ Hx] | (_ & _ & Hl)]; [exact Hx | lia].
Qed.

(** Starting from at most four distinct ids, [toggleCompare] keeps the
    selection duplicate-free and at most four long. *)
Theorem toggleCompare_bounded (id : string) (prev : list string) :
  NoDup prev -> (List.length prev <= 4)%nat ->
  NoDup (toggleCompare id prev) /\ (List.length (toggleCompare id prev) <= 4)%nat.
Proof.
  intros Hnd Hl. unfold toggleCompare.
  destruct (includes prev id) eqn:E.
  - split; [apply NoDup_filter; exact Hnd |].
    pose proof (filter_length_le (fun x => negb (String.eqb x id)) prev). lia.
  - apply includes_false in E.
    destruct (Nat.ltb (List.length prev) 4) eqn:L; [| auto].
    apply Nat.ltb_lt in L. split.
    + apply NoDup_app; [exact Hnd | constructor; [intros [] | constructor] |].
      intros y Hy [<- | []]. exact (E Hy).
    + rewrite length_app. simpl. lia.
Qed.

Lemma toggleCompare_bounded_witness :
  NoDup ["a"%string; "b"%string] /\ (List.length ["a"%string; "b"%string] <= 4)%nat /\
  NoDup (toggleCompare "c" ["a"%string; "b"%string]) /\ (List.length (toggleCompare "c" ["a"%string; "b"%string]) <= 4)%nat.
Proof.
  assert (Hnd : NoDup ["a"%string; "b"%string])
    by (constructor; [intros [H | []]; discriminate | constructor; [intros [] | constructor]]).
  split; [exact Hnd |]. split; [simpl; lia |].
  apply toggleCompare_bounded; [exact Hnd | simpl; lia].
Defined.

(** Adding an id that was not selected (with room for it) and toggling it
    again restores the previous selection. *)
Theorem toggleCompare_twice (id : string) (prev : list string) :
  ~ In id prev -> (List.length prev < 4)%nat ->
  toggleCompare id (toggleCompare id prev) = prev.
Proof.
  intros Hn Hl. unfold toggleCompare at 2.
  rewrite (proj2 (includes_false prev id) Hn).
  apply Nat.ltb_lt in Hl. rewrite Hl.
  unfold toggleCompare.
  assert (Hin : includes (prev ++ [id]) id = true)
    by (apply includes_In; apply in_or_app; right; left; reflexivity).
  rewrite Hin, filter_app. simpl. rewrite String.eqb_refl. simpl. rewrite app_nil_r.
  apply filter_all. intros x Hx. apply negb_true_iff, String.eqb_neq.
  intros ->. contradiction.
Qed.

Lemma toggleCompare_twice_witness :
  ~ In "c"%string ["a"%string; "b"%string] /\ (List.length ["a"%string; "b"%string] < 4)%nat /\
  toggleCompare "c" (toggleCompare "c" ["a"%string; "b"%string]) = ["a"%string; "b"%string].
Proof.
  assert (Hn : ~ In "c"%string ["a"%string; "b"%string]) by (intros [H | [H | []]]; discriminate).
  split; [exact Hn |]. split; [simpl; lia |].
  apply toggleCompare_twice; [exact Hn | simpl; lia].
Defined.

(** After [toggleShaper s], a shaper is selected exactly when it was
    selected and is not [s], or it is [s] and was not selected. *)
Theorem toggleShaper_members (s x : string) (prev : list string) :
  In x (toggleShaper s prev) <-> (x <> s /\ In x prev) \/ (x = s /\ ~ In s prev).
Proof.
  unfold toggleShaper.
  destruct (includes prev s) eqn:E.
  - apply includes_In in E. rewrite filter_neq_In. split; [tauto |].
    intros [H | (_ & Hn)]; [exact H | contradiction].
  - apply includes_false in E. rewrite in_app_iff. simpl. split.
    + intros [Hx | [<- | []]]; [left; split; [intros ->; contradiction | exact Hx] |].
      right. auto.
    + intros [[_ Hx] | (-> & _)]; auto.
Qed.

(** [toggleShaper] keeps the shaper filter duplicate-free, and toggling a
    shaper that was not selected twice restores the filter. *)
Theorem toggleShaper_nodup_twice (s : string) (prev : list string) :
  NoDup prev ->
  NoDup (toggleShaper s prev) /\
  (~ In s prev -> toggleShaper s (toggleShaper s prev) = prev).
Proof.
  intros Hnd. split.
  - unfold toggleShaper. destruct (includes prev s) eqn:E.
    + apply NoDup_filter. exact Hnd.
    + apply includes_false in E.
      apply NoDup_app; [exact Hnd | constructor; [intros [] | constructor] |].
      intros y Hy [<- | []]. exact (E Hy).
  - intros Hn. unfold toggleShaper at 2.
    rewrite (proj2 (includes_false prev s) Hn).
    unfold toggleShaper.
    assert (Hin : includes (prev ++ [s]) s = true)
      by (apply includes_In; apply in_or_app; right; left; reflexivity).
    rewrite Hin, filter_app. simpl. rewrite String.eqb_refl. simpl. rewrite app_nil_r.
    apply filter_all. intros x Hx. apply negb_true_iff, String.eqb_neq.
    intros ->. contradiction.
Qed.

Lemma toggleShaper_nodup_twice_witness :
  NoDup ["Pyzel"%string] /\ NoDup (toggleShaper "JS Industries" ["Pyzel"%string]).
Proof.
  assert (Hnd : NoDup ["Pyzel"%string]) by (constructor; [intros [] | constructor]).
  split; [exact Hnd | apply (toggleShaper_nodup_twice "JS Industries" _ Hnd)].
Defined.

(** When the catalog's ids are distinct, the compared boards are no more
    than the selected ids (so at most four under [toggleCompare]). *)
Theorem selectedBoards_length (boards : list (Board Q)) (compareIds : list string) :
  NoDup (map id boards) ->
  (List.length (selectedBoards boards compareIds) <= List.length compareIds)%nat.
Proof.
  intros Hnd. unfold selectedBoards.
  rewrite <- (length_map id).
  apply NoDup_incl_length.
  - induction boards as [| b bs IH]; simpl; [constructor |].
    inversion Hnd as [| ? ? Hb Hbs]; subst.
    destruct (includes compareIds (id b)); [| apply IH; exact Hbs].
    simpl. constructor; [| apply IH; exact Hbs].
    intros Hin. apply Hb. apply in_map_iff in Hin as [b' [Eb Hb']].
    apply in_map_iff. exists b'. split; [exact Eb |].
    apply filter_In in Hb'. apply Hb'.
  - intros x Hx. apply in_map_iff in Hx as [b [<- Hb]].
    apply filter_In in Hb as [_ Hb]. apply includes_In. exact Hb.
Qed.

Lemma selectedBoards_length_witness :
  NoDup (map id FALLBACK_BOARDS) /\
  (List.length (selectedBoards FALLBACK_BOARDS ["pyzel-ghost"%string])
   <= List.length ["pyzel-ghost"%string])%nat.
Proof.
  assert (Hnd : NoDup (map id FALLBACK_BOARDS)).
  { simpl. constructor; [intros [H | [H | []]]; discriminate |].
    constructor; [intros [H | []]; discriminate |].
    constructor; [intros [] | constructor]. }
  split; [exact Hnd | apply selectedBoards_length; exact Hnd].
Defined.

(** ** Loader URL and CSV rows *)

Local Open Scope string_scope.

Lemma prefix_app (p s : string) : String.prefix p (p ++ s) = true.
Proof.
  induction p as [| a p IH]; simpl; [destruct s; reflexivity |].
  destruct (ascii_dec a a) as [_ | n]; [exact IH | contradiction].
Qed.

Lemma drop_n_app (p s : string) : drop_n (String.length p) (p ++ s) = s.
Proof. induction p as [| a p IH]; simpl; auto. Qed.

Lemma replace_first_prefix (pat rep s : string) :
  String.prefix pat s = true -> replace_first pat rep s = (rep ++ drop_n (String.length pat) s).
Proof. intros H. destruct s; cbn [replace_first]; rewrite H; reflexivity. Qed.

Lemma replace_first_cons (pat rep : string) (c : ascii) (s : string) :
  String.prefix pat (String c s) = false ->
  replace_first pat rep (String c s) = String c (replace_first pat rep s).
Proof. intros H. cbn [replace_first]. rewrite H. reflexivity. Qed.

Lemma prefix_cons (a c : ascii) (p s : string) :
  String.prefix (String a p) (String c s) = if ascii_dec a c then String.prefix p s else false.
Proof. reflexivity. Qed.

Lemma replace_first_noslash (rep s t : string) :
  has_char "/" s = false ->
  replace_first "/blob/" rep (s ++ t) = (s ++ replace_first "/blob/" rep t).
Proof.
  induction s as [| c s IH]; cbn [append has_char]; intros H; [reflexivity |].
  apply orb_false_iff in H as [Hc Hs].
  rewrite replace_first_cons; [rewrite IH by exact Hs; reflexivity |].
  rewrite prefix_cons. destruct (ascii_dec "/" c) as [<- | _]; [discriminate | reflexivity].
Qed.

Lemma blob_segment (s t : string) :
  has_char "/" s = false -> s <> "blob" ->
  String.prefix "/blob/" ("/" ++ s ++ "/" ++ t) = false.
Proof.
  intros H Hb. change (String.prefix "blob/" (s ++ "/" ++ t) = false).
  destruct s as [| c1 s]; [reflexivity |]. cbn [append].
  rewrite prefix_cons. destruct (ascii_dec "b" c1) as [<- | _]; [| reflexivity].
  destruct s as [| c2 s]; [reflexivity |]. cbn [append].
  rewrite prefix_cons. destruct (ascii_dec "l" c2) as [<- | _]; [| reflexivity].
  destruct s as [| c3 s]; [reflexivity |]. cbn [append].
  rewrite prefix_cons. destruct (ascii_dec "o" c3) as [<- | _]; [| reflexivity].
  destruct s as [| c4 s]; [reflexivity |]. cbn [append].
  rewrite prefix_cons. destruct (ascii_dec "b" c4) as [<- | _]; [| reflexivity].
  destruct s as [| c5 s]; [contradiction |]. cbn [append].
  rewrite prefix_cons. destruct (ascii_dec "/" c5) as [<- | _]; [| reflexivity].
  discriminate H.
Qed.

Lemma dotplus_then_app (pat s t : string) (seen : bool) :
  has_char "010" s = false -> has_char "013" s = false ->
  (seen = true \/ s <> EmptyString) -> String.prefix pat t = true ->
  dotplus_then pat (s ++ t) seen = true.
Proof.
  revert seen. induction s as [| c s IH]; intros seen H10 H13 Hs Hp.
  - destruct Hs as [-> | Hs]; [| contradiction].
    destruct t; cbn [append dotplus_then]; rewrite Hp; reflexivity.
  - cbn [has_char] in H10, H13. apply orb_false_iff in H10 as [H10c H10].
    apply orb_false_iff in H13 as [H13c H13].
    cbn [append]. cbn [dotplus_then].
    rewrite (IH true H10 H13 (or_introl eq_refl) Hp).
    unfold is_line_terminator. rewrite Ascii.eqb_sym in H10c, H13c.
    rewrite H10c, H13c. apply orb_true_r.
Qed.

Lemma str_app_assoc (a b c : string) : ((a ++ b) ++ c) = (a ++ b ++ c).
Proof. induction a as [| x a IH]; cbn [append]; [reflexivity | rewrite IH; reflexivity]. Qed.

Lemma has_char_app (c : ascii) (a b : string) : has_char c (a ++ b) = has_char c a || has_char c b.
Proof.
  induction a as [| x a IH]; cbn [append has_char]; [reflexivity |].
  rewrite IH. apply orb_assoc.
Qed.

Lemma replace_first_segment (rep s t : string) :
  has_char "/" s = false -> s <> "blob" ->
  replace_first "/blob/" rep ("/" ++ s ++ "/" ++ t) = ("/" ++ s ++ replace_first "/blob/" rep ("/" ++ t)).
Proof.
  intros H Hb. change ("/" ++ s ++ "/" ++ t) with (String "/" (s ++ "/" ++ t)).
  rewrite replace_first_cons by exact (blob_segment s t H Hb).
  rewrite replace_first_noslash by exact H. reflexivity.
Qed.

Lemma replace_first_raw_host (rep t : string) :
  replace_first "/blob/" rep ("https://raw.githubusercontent.com" ++ t)
  = ("https://raw.githubusercontent.com" ++ replace_first "/blob/" rep t).
Proof.
  cbn [append]. repeat (rewrite replace_first_cons by reflexivity). reflexivity.
Qed.

Lemma github_blob_test_eq (s : string) :
  github_blob_test s =
  (String.prefix "github.com/" s && dotplus_then "/blob/" (drop_n 11 s) false)
  || match s with EmptyString => false | String _ r => github_blob_test r end.
Proof. destruct s; reflexivity. Qed.

Lemma github_blob_test_app (p s : string) :
  github_blob_test s = true -> github_blob_test (p ++ s) = true.
Proof.
  intros H. induction p as [| c p IH]; [exact H |].
  cbn [append]. rewrite github_blob_test_eq, IH. apply orb_true_r.
Qed.

Lemma dotplus_then_contains (pat s : string) (seen : bool) :
  dotplus_then pat s seen = true -> str_contains pat s = true.
Proof.
  revert seen. induction s as [| c s IH]; intros seen H.
  - cbn [dotplus_then] in H. rewrite orb_false_r in H. apply andb_true_iff in H as [_ H].
    cbn [str_contains]. rewrite H. reflexivity.
  - cbn [dotplus_then] in H. apply orb_true_iff in H as [H | H].
    + apply andb_true_iff in H as [_ H]. cbn [str_contains]. rewrite H. reflexivity.
    + apply andb_true_iff in H as [_ H]. cbn [str_contains]. rewrite (IH true H). apply orb_true_r.
Qed.

Lemma str_contains_drop (pat s : string) (n : nat) :
  str_contains pat (drop_n n s) = true -> str_contains pat s = true.
Proof.
  revert n. induction s as [| c s IH]; intros n H.
  - destruct n; exact H.
  - destruct n as [| n]; [exact H |].
    cbn [drop_n] in H. cbn [str_contains]. rewrite (IH n H). apply orb_true_r.
Qed.

Lemma github_blob_test_contains (s : string) :
  github_blob_test s = true ->
  str_contains "github.com/" s = true /\ str_contains "/blob/" s = true.
Proof.
  induction s as [| c s IH]; intros H.
  - discriminate H.
  - rewrite github_blob_test_eq in H. apply orb_true_iff in H as [H | H].
    + apply andb_true_iff in H as [Hp Hd]. split.
      * cbn [str_contains]. rewrite Hp. reflexivity.
      * apply (str_contains_drop _ _ 11). apply (dotplus_then_contains _ _ _ Hd).
    + destruct (IH H) as [H1 H2]. cbn [str_contains]. rewrite H1, H2.
      split; apply orb_true_r.
Qed.

(** A URL that does not contain both [github.com/] and [/blob/] is
    returned unchanged by [normalizeGithubRaw]. *)
Theorem normalizeGithubRaw_other (url : string) :
  str_contains "github.com/" url = false \/ str_contains "/blob/" url = false ->
  normalizeGithubRaw url = url.
Proof.
  intros H. unfold normalizeGithubRaw.
  destruct (github_blob_test url) eqn:E; [| reflexivity].
  apply github_blob_test_contains in E as [E1 E2]. destruct H; congruence.
Qed.

(** A GitHub blob URL [https://github.com/owner/repo/blob/path], with
    owner and repo free of [/] and line terminators and not literally
    [blob], is rewritten to the raw URL
    [https://raw.githubusercontent.com/owner/repo/path]. *)
Theorem normalizeGithubRaw_blob (owner repo path : string) :
  has_char "/" owner = false -> has_char "/" repo = false ->
  owner <> "blob" -> repo <> "blob" ->
  has_char "010" owner = false -> has_char "013" owner = false ->
  has_char "010" repo = false -> has_char "013" repo = false ->
  normalizeGithubRaw ("https://github.com/" ++ owner ++ "/" ++ repo ++ "/blob/" ++ path)
  = ("https://raw.githubusercontent.com/" ++ owner ++ "/" ++ repo ++ "/" ++ path).
Proof.
  intros Ho Hr Hbo Hbr Lo Co Lr Cr. unfold normalizeGithubRaw.
  assert (D : dotplus_then "/blob/" ((owner ++ "/" ++ repo) ++ "/blob/" ++ path) false = true).
  { apply dotplus_then_app; [| | right | apply prefix_app].
    - rewrite has_char_app, Lo. exact Lr.
    - rewrite has_char_app, Co. exact Cr.
    - destruct owner; discriminate. }
  rewrite str_app_assoc in D.
  assert (E : github_blob_test ("https://github.com/" ++ owner ++ "/" ++ repo ++ "/blob/" ++ path) = true).
  { change ("https://github.com/" ++ owner ++ "/" ++ repo ++ "/blob/" ++ path)
      with ("https://" ++ ("github.com/" ++ owner ++ "/" ++ repo ++ "/blob/" ++ path)).
    apply github_blob_test_app. rewrite github_blob_test_eq, prefix_app. exact (orb_true_intro _ _ (or_introl D)). }
  rewrite E, (replace_first_prefix _ _ _ (prefix_app "https://github.com/" _)), drop_n_app.
  change ("https://raw.githubusercontent.com/" ++ owner ++ "/" ++ repo ++ "/blob/" ++ path)
    with ("https://raw.githubusercontent.com" ++ ("/" ++ owner ++ "/" ++ repo ++ "/" ++ ("blob/" ++ path))).
  rewrite replace_first_raw_host, replace_first_segment by assumption.
  rewrite replace_first_segment by assumption.
  change ("/" ++ "blob/" ++ path) with ("/blob/" ++ path).
  rewrite (replace_first_prefix _ _ _ (prefix_app "/blob/" _)), drop_n_app.
  reflexivity.
Qed.

Lemma normalizeGithubRaw_other_witness :
  (str_contains "github.com/" "https://example.com/boards.json" = false \/
   str_contains "/blob/" "https://example.com/boards.json" = false) /\
  normalizeGithubRaw "https://example.com/boards.json" = "https://example.com/boards.json".
Proof.
  split; [left; reflexivity |].
  apply normalizeGithubRaw_other. left. reflexivity.
Defined.

Lemma normalizeGithubRaw_blob_witness :
  has_char "/" "DJenkin82" = false /\ has_char "/" "Surfboard-Finder" = false /\
  "DJenkin82" <> "blob" /\ "Surfboard-Finder" <> "blob" /\
  has_char "010" "DJenkin82" = false /\ has_char "013" "DJenkin82" = false /\
  has_char "010" "Surfboard-Finder" = false /\ has_char "013" "Surfboard-Finder" = false /\
  normalizeGithubRaw GITHUB_JSON_URL
  = "https://raw.githubusercontent.com/DJenkin82/Surfboard-Finder/main/Surfboard%20Finder.txt".
Proof.
  split; [reflexivity |]. split; [reflexivity |].
  split; [discriminate |]. split; [discriminate |].
  split; [reflexivity |]. split; [reflexivity |].
  split; [reflexivity |]. split; [reflexivity |].
  exact (normalizeGithubRaw_blob "DJenkin82" "Surfboard-Finder" "main/Surfboard%20Finder.txt"
           eq_refl eq_refl ltac:(discriminate) ltac:(discriminate) eq_refl eq_refl eq_refl eq_refl).
Defined.

Lemma str_app_nil_r (a : string) : (a ++ EmptyString) = a.
Proof. induction a as [| x a IH]; cbn [append]; [reflexivity | rewrite IH; reflexivity]. Qed.

Lemma csv_fields_plain (f rest cur : string) (inQ : bool) :
  has_char "034" f = false -> (inQ = true \/ has_char "," f = false) ->
  csv_fields (f ++ rest) cur inQ = csv_fields rest (cur ++ f) inQ.
Proof.
  revert cur. induction f as [| c f IH]; intros cur Hq Hc.
  - rewrite str_app_nil_r. reflexivity.
  - cbn [has_char] in Hq. apply orb_false_iff in Hq as [Hq1 Hq].
    rewrite Ascii.eqb_sym in Hq1.
    cbn [append csv_fields]. rewrite Hq1.
    assert (Hc' : (Ascii.eqb c "," && negb inQ) = false).
    { destruct Hc as [-> | Hc]; [apply andb_false_r |].
      cbn [has_char] in Hc. apply orb_false_iff in Hc as [Hc1 _].
      rewrite Ascii.eqb_sym, Hc1. reflexivity. }
    rewrite Hc', IH.
    + rewrite str_app_assoc. reflexivity.
    + exact Hq.
    + destruct Hc as [-> | Hc]; [left; reflexivity | right].
      cbn [has_char] in Hc. apply orb_false_iff in Hc as [_ Hc]. exact Hc.
Qed.

Lemma csv_fields_field (qf : bool * string) (rest : string) :
  has_char "034" (snd qf) = false -> (fst qf = false -> has_char "," (snd qf) = false) ->
  csv_fields ((if fst qf then String "034" (snd qf ++ String "034" EmptyString) else snd qf) ++ rest)
    EmptyString false
  = csv_fields rest (snd qf) false.
Proof.
  destruct qf as [[|] f]; cbn [fst snd]; intros Hq Hc.
  - cbn [append]. rewrite str_app_assoc. cbn [csv_fields Ascii.eqb negb].
    rewrite (csv_fields_plain f _ _ true Hq (or_introl eq_refl)). reflexivity.
  - rewrite (csv_fields_plain f _ _ false Hq (or_intror (Hc eq_refl))). reflexivity.
Qed.

Lemma csv_fields_comma (r cur : string) :
  csv_fields ("," ++ r) cur false = cur :: csv_fields r EmptyString false.
Proof. reflexivity. Qed.

(** Round trip of the row parser: joining fields with commas, each field
    free of double quotes and either wrapped in double quotes or free of
    commas, and parsing the line gives back the fields (or [null] when
    fewer than [expected]). *)
Theorem safeParseCSVRow_roundtrip (fs : list (bool * string)) (n : nat) :
  fs <> [] ->
  (forall qf, In qf fs ->
     has_char "034" (snd qf) = false /\ (fst qf = false -> has_char "," (snd qf) = false)) ->
  safeParseCSVRow
    (String.concat ","
       (map (fun qf : bool * string => if fst qf then String "034" (snd qf ++ String "034" EmptyString) else snd qf) fs))
    n
  = if Nat.leb n (List.length fs) then Some (map snd fs) else None.
Proof.
  intros Hne Hok.
  assert (H : csv_fields
    (String.concat ","
       (map (fun qf : bool * string => if fst qf then String "034" (snd qf ++ String "034" EmptyString) else snd qf) fs))
    EmptyString false = map snd fs).
  { clear n. induction fs as [| qf fs IH]; [contradiction |].
    destruct (Hok qf (or_introl eq_refl)) as [Hq Hc].
    destruct fs as [| qf' fs].
    - cbn [map String.concat].
      pose proof (csv_fields_field qf EmptyString Hq Hc) as E.
      rewrite str_app_nil_r in E. rewrite E. reflexivity.
    - change (String.concat "," (map ?g (qf :: qf' :: fs)))
        with (g qf ++ "," ++ String.concat "," (map g (qf' :: fs))).
      cbv beta. rewrite csv_fields_field by assumption. rewrite csv_fields_comma.
      cbn [map]. f_equal. apply IH; [discriminate |].
      intros x Hx. apply Hok. right. exact Hx. }
  unfold safeParseCSVRow. rewrite H, length_map. reflexivity.
Qed.

(** [parseAirtableCSV] returns one board per data row (after dropping
    empty lines and the header line) whose parsed field count reaches the
    header count. *)
Theorem parseAirtableCSV_length (csv r0 : string) (rest : list string) :
  filter (fun r => negb (String.eqb r EmptyString)) (split_lines csv) = r0 :: rest ->
  List.length (parseAirtableCSV csv) =
  List.length (filter (fun r => Nat.leb (List.length (map trim (split_char "," r0)))
                                        (List.length (csv_fields r EmptyString false))) rest).
Proof.
  intros H. unfold parseAirtableCSV. rewrite H. clear H. generalize 1%nat.
  induction rest as [| r rs IH]; intros i; [reflexivity |].
  cbn [rows_to_boards filter]. unfold safeParseCSVRow at 1.
  destruct (Nat.leb _ _); cbn [List.length]; rewrite IH; reflexivity.
Qed.

Lemma parseAirtableCSV_length_witness :
  filter (fun r => negb (String.eqb r EmptyString)) (split_lines csv_tags)
    = ["shaper,model,waveTypes"; "JS Industries,Monsta 2024," ++ String "034" "small_beach, mellow_point" ++ String "034" EmptyString; "short"] /\
  List.length (parseAirtableCSV csv_tags) = 1%nat.
Proof.
  assert (H : filter (fun r => negb (String.eqb r EmptyString)) (split_lines csv_tags)
    = ["shaper,model,waveTypes"; "JS Industries,Monsta 2024," ++ String "034" "small_beach, mellow_point" ++ String "034" EmptyString; "short"])
    by reflexivity.
  split; [exact H |].
  rewrite (parseAirtableCSV_length _ _ _ H). reflexivity.
Defined.

Lemma remove_spaces_no_space (s : string) : has_char " " (remove_spaces s) = false.
Proof.
  induction s as [| c s IH]; cbn [remove_spaces]; [reflexivity |].
  destruct (Ascii.eqb c " ") eqn:E; [exact IH |].
  cbn [has_char]. rewrite Ascii.eqb_sym, E. exact IH.
Qed.

Lemma split_char_no_char (c sep : ascii) (s t : string) :
  has_char c s = false -> In t (split_char sep s) -> has_char c t = false.
Proof.
  revert t. induction s as [| d s IH]; intros t Hs Ht.
  - destruct Ht as [<- | []]. reflexivity.
  - cbn [has_char] in Hs. apply orb_false_iff in Hs as [Hd Hs].
    cbn [split_char] in Ht. destruct (Ascii.eqb d sep).
    + destruct Ht as [<- | Ht]; [reflexivity | exact (IH t Hs Ht)].
    + unfold cons_head in Ht. destruct (split_char sep s) as [| h tl] eqn:E.
      * destruct Ht as [<- | []]. cbn [has_char]. rewrite Hd. reflexivity.
      * destruct Ht as [<- | Ht].
        -- cbn [has_char]. rewrite Hd. apply IH; [exact Hs | left; reflexivity].
        -- apply IH; [exact Hs | right; exact Ht].
Qed.

Lemma split_multi_no_space (s t : string) :
  In t (split_multi (remove_spaces s)) -> has_char " " t = false.
Proof.
  unfold split_multi. intros H.
  destruct (String.eqb (remove_spaces s) EmptyString); [destruct H |].
  destruct (has_char "|" (remove_spaces s));
    exact (split_char_no_char _ _ _ _ (remove_spaces_no_space s) H).
Qed.

(** No wave type or ability of a parsed board contains a space. *)
Theorem parseAirtableCSV_tags_no_space (csv : string) (b : Board JsNum) :
  In b (parseAirtableCSV csv) ->
  forall t, In t (waveTypes b) \/ In t (abilities b) -> has_char " " t = false.
Proof.
  intros Hb t Ht.
  apply parseAirtableCSV_rows in Hb as (r0 & rest & row & cols & j & _ & _ & _ & ->).
  cbn [waveTypes abilities board_of_row] in Ht.
  destruct Ht as [Ht | Ht]; exact (split_multi_no_space _ _ Ht).
Qed.

Lemma lower_ascii_idem (c : ascii) : lower_ascii (lower_ascii c) = lower_ascii c.
Proof. destruct c as [[] [] [] [] [] [] [] []]; reflexivity. Qed.

Lemma toLowerCase_chars (s : string) (c : ascii) :
  In c (list_ascii_of_string (toLowerCase s)) -> lower_ascii c = c.
Proof.
  induction s as [| d s IH]; cbn [toLowerCase list_ascii_of_string]; [intros [] |].
  intros [<- | H]; [apply lower_ascii_idem | exact (IH H)].
Qed.

Lemma replace_ws_chars (s : string) (b : bool) (c : ascii) :
  In c (list_ascii_of_string (replace_ws s b)) ->
  c = "-"%char \/ (In c (list_ascii_of_string s) /\ is_ws c = false).
Proof.
  revert b. induction s as [| d s IH]; intros b; cbn [replace_ws list_ascii_of_string]; [intros [] |].
  destruct (is_ws d) eqn:W.
  - destruct b.
    + intros H. destruct (IH true H) as [-> | [H1 H2]]; [left; reflexivity | right; split; [right; exact H1 | exact H2]].
    + cbn [list_ascii_of_string]. intros [<- | H]; [left; reflexivity |].
      destruct (IH true H) as [-> | [H1 H2]]; [left; reflexivity | right; split; [right; exact H1 | exact H2]].
  - cbn [list_ascii_of_string]. intros [<- | H]; [right; split; [left; reflexivity | exact W] |].
    destruct (IH false H) as [-> | [H1 H2]]; [left; reflexivity | right; split; [right; exact H1 | exact H2]].
Qed.

Lemma replace_ws_nonempty (s : string) : s <> EmptyString -> replace_ws s false <> EmptyString.
Proof.
  destruct s as [| c s]; [contradiction |]. intros _. cbn [replace_ws].
  destruct (is_ws c); discriminate.
Qed.

Lemma toLowerCase_nonempty (s : string) : s <> EmptyString -> toLowerCase s <> EmptyString.
Proof. destruct s; [contradiction | discriminate]. Qed.

Lemma or_str_empty (v : option string) (d : string) :
  or_str v EmptyString = EmptyString -> or_str v d = d.
Proof.
  unfold or_str. destruct v as [s |]; [| reflexivity].
  destruct (String.eqb s EmptyString) eqn:E; [reflexivity |].
  intros ->. discriminate.
Qed.

(** When a row's [id] cell is missing or empty, the synthesized id is
    non-empty, has no white space and no upper-case letter. *)
Theorem board_of_row_synth_id (headers cols : list string) (i : nat) :
  or_str (cell headers cols "id") EmptyString = EmptyString ->
  id (board_of_row headers cols i) <> EmptyString /\
  forall c, In c (list_ascii_of_string (id (board_of_row headers cols i))) ->
    is_ws c = false /\ lower_ascii c = c.
Proof.
  intros H. cbn [board_of_row id]. rewrite or_str_empty by exact H. split.
  - apply replace_ws_nonempty, toLowerCase_nonempty.
    destruct (or_str (cell headers cols "shaper") EmptyString); discriminate.
  - intros c Hc. apply replace_ws_chars in Hc as [-> | [Hc W]]; [split; reflexivity |].
    split; [exact W | exact (toLowerCase_chars _ _ Hc)].
Qed.

(** Every board parsed from a CSV has a non-empty id. *)
Theorem parseAirtableCSV_id_nonempty (csv : string) (b : Board JsNum) :
  In b (parseAirtableCSV csv) -> id b <> EmptyString.
Proof.
  intros Hb.
  apply parseAirtableCSV_rows in Hb as (r0 & rest & row & cols & j & _ & _ & _ & ->).
  destruct (String.eqb (or_str (cell (map trim (split_char "," r0)) cols "id") EmptyString) EmptyString) eqn:E.
  - apply String.eqb_eq in E. exact (proj1 (board_of_row_synth_id _ _ j E)).
  - apply String.eqb_neq in E. cbn [board_of_row id].
    unfold or_str in E |- *. destruct (cell _ cols "id") as [s |]; [| contradiction].
    destruct (String.eqb s EmptyString) eqn:E2; [contradiction | ].
    intros ->. discriminate.
Qed.

Lemma safeParseCSVRow_roundtrip_witness :
  [(false, "js-1"); (true, "small_beach, mellow_point"); (false, "JS Industries")] <> [] /\
  (forall qf, In qf [(false, "js-1"); (true, "small_beach, mellow_point"); (false, "JS Industries")] ->
     has_char "034" (snd qf) = false /\ (fst qf = false -> has_char "," (snd qf) = false)) /\
  safeParseCSVRow
    ("js-1," ++ String "034" "small_beach, mellow_point" ++ String "034" ",JS Industries") 3
  = Some ["js-1"; "small_beach, mellow_point"; "JS Industries"].
Proof.
  assert (Hne : [(false, "js-1"); (true, "small_beach, mellow_point"); (false, "JS Industries")] <> [])
    by discriminate.
  assert (Hok : forall qf, In qf [(false, "js-1"); (true, "small_beach, mellow_point"); (false, "JS Industries")] ->
     has_char "034" (snd qf) = false /\ (fst qf = false -> has_char "," (snd qf) = false)).
  { intros qf [<- | [<- | [<- | []]]]; split; try reflexivity; discriminate. }
  split; [exact Hne |]. split; [exact Hok |].
  exact (safeParseCSVRow_roundtrip _ 3 Hne Hok).
Defined.

Lemma parseAirtableCSV_board_tags : parseAirtableCSV csv_tags = [board_tags].
Proof. vm_compute. reflexivity. Qed.

Lemma parseAirtableCSV_tags_no_space_witness :
  In board_tags (parseAirtableCSV csv_tags) /\
  waveTypes board_tags = ["small_beach"; "mellow_point"] /\
  (forall t, In t (waveTypes board_tags) \/ In t (abilities board_tags) -> has_char " " t = false).
Proof.
  assert (Hin : In board_tags (parseAirtableCSV csv_tags))
    by (rewrite parseAirtableCSV_board_tags; left; reflexivity).
  split; [exact Hin |]. split; [reflexivity |].
  exact (parseAirtableCSV_tags_no_space _ _ Hin).
Defined.

Lemma board_of_row_synth_id_witness :
  or_str (cell ["shaper"; "model"; "waveTypes"] ["JS Industries"; "Monsta 2024"; "small_beach, mellow_point"] "id") EmptyString = EmptyString /\
  id board_tags = "js-industries-monsta-2024" /\
  forall c, In c (list_ascii_of_string (id board_tags)) -> is_ws c = false /\ lower_ascii c = c.
Proof.
  split; [reflexivity |]. split; [vm_compute; reflexivity |].
  exact (proj2 (board_of_row_synth_id ["shaper"; "model"; "waveTypes"]
                 ["JS Industries"; "Monsta 2024"; "small_beach, mellow_point"] 1 eq_refl)).
Defined.

Lemma parseAirtableCSV_id_nonempty_witness :
  In board_tags (parseAirtableCSV csv_tags) /\ id board_tags <> EmptyString.
Proof.
  assert (Hin : In board_tags (parseAirtableCSV csv_tags))
    by (rewrite parseAirtableCSV_board_tags; left; reflexivity).
  split; [exact Hin | exact (parseAirtableCSV_id_nonempty _ _ Hin)].
Defined.
